(** * The pgen2 parser engine of parso (parso/pgen2/parse.py)

    A shallow embedding of the table-driven pushdown automaton: the label
    resolver [token_to_ilabel], the reduction [_pop], the shift loop
    [add_token], the driver [parse] and the two introspection methods of
    [Stack].

    Conventions.
    - The Python list [self.stack] is kept top first: the head of the Rocq
      list is [stack[-1]], [stack.append] conses and [stack.pop()] removes
      the head.  [py_order] gives the list in Python's order back.
    - A Python dict is an insertion-ordered association list ([dict]).
    - Mutable parser state ([self.stack], [self.rootnode]) is threaded
      through a state monad whose state survives a raised exception, as the
      mutations of a Python object do. *)

From Stdlib Require Import ZArith String List.
From stdpp Require Import base tactics option list strings sorting.

Open Scope Z_scope.
Open Scope string_scope.
Open Scope list_scope.

(** ** Python dictionaries *)

Module Dict.
Section Dict.
Context {K V : Type} `{EqDecision K}.

Definition dict := list (K * V).

(** [d[k]]; [None] stands for KeyError. *)
Fixpoint get (k : K) (d : dict) : option V :=
match d with
| [] => None
| (k', v) :: r => if decide (k = k') then Some v else get k r
end.

(** [d[k] = v]: an existing key keeps its place, a new one goes last. *)
Fixpoint set (k : K) (v : V) (d : dict) : dict :=
match d with
| [] => [(k, v)]
| (k', v') :: r =>
    if decide (k = k') then (k, v) :: r else (k', v') :: set k v r
end.

Definition items (d : dict) : list (K * V) := d.
Definition keys (d : dict) : list K := map fst d.
End Dict.
Arguments dict : clear implicits.

(** [dict((v, k) for k, v in d.items())] *)
Definition invert {K V : Type} `{EqDecision V} (d : dict K V) : dict V K :=
fold_left (fun acc kv => set (snd kv) (fst kv) acc) (items d) [].
End Dict.

Abbreviation dict := Dict.dict.

(** ** Exceptions and outcomes *)

Definition pos : Type := Z * Z.

Inductive exn : Type :=
| InternalParseError (msg : string) (type_ : Z) (value : string) (start_pos : pos)
| UnboundLocalError (name : string)
| KeyError
| IndexError
| TypeError
| RecursionError
| ValueError
| Raised (name : string)   (* any other exception of a callback *)
| Diverged.                (* a loop of the model ran out of its bound *)

Inductive outcome (A : Type) : Type :=
| Ret (a : A)
| Raise (e : exn).
Arguments Ret {A} a.
Arguments Raise {A} e.

Definition of_option {A : Type} (e : exn) (o : option A) : outcome A :=
  match o with Some a => Ret a | None => Raise e end.

#[global] Instance outcome_ret : MRet outcome := fun A a => Ret a.
#[global] Instance outcome_fmap : FMap outcome := fun A B f m =>
  match m with
  | Ret a => Ret (f a)
  | Raise e => Raise e
  end.
#[global] Instance outcome_bind : MBind outcome := fun A B f m =>
  match m with
  | Ret a => f a
  | Raise e => Raise e
  end.

(** [sorted] on a list of [str]. *)
Definition str_le (a b : string) : Prop := String.leb a b = true.
#[global] Instance str_le_dec : RelDecision str_le.
Proof. intros a b. unfold str_le. apply _. Defined.
Definition sorted (l : list string) : list string := merge_sort str_le l.

(** ** Grammar tables *)

(** A transition of [DFAState.ilabel_to_plan] ([DFAPlan] of the generator). *)
Record Plan (DFA : Type) : Type := mkPlan {
  next_dfa : DFA;
  dfa_pushes : list DFA
}.
Arguments mkPlan {DFA} _ _.
Arguments next_dfa {DFA} _.
Arguments dfa_pushes {DFA} _.

Record Grammar (DFA : Type) : Type := mkGrammar {
  keywords : dict string Z;
  tokens : dict Z Z;
  number2nonterminal : dict Z string;
  _nonterminal_to_dfas : dict string (list DFA)
}.
Arguments mkGrammar {DFA} _ _ _ _.
Arguments keywords {DFA} _.
Arguments tokens {DFA} _.
Arguments number2nonterminal {DFA} _.
Arguments _nonterminal_to_dfas {DFA} _.

(** The 4-tuples [(type_, value, start_pos, prefix)] of the token stream. *)
Record Token : Type := mkToken {
  tk_type : Z;
  tk_value : string;
  tk_start_pos : pos;
  tk_prefix : string
}.

Section Engine.

(** [DFAState] comes from the grammar generator: the engine reads three
    attributes of it.  States are compared and stored by reference. *)
Variable DFA : Type.
Variable from_rule : DFA -> string.
Variable is_final : DFA -> bool.
Variable ilabel_to_plan : DFA -> dict Z (Plan DFA).

(** [tokenize.NAME] and [tokenize.tok_name]. *)
Variable NAME : Z.
Variable tok_name : dict Z string.

(** Tree nodes are whatever the two converters build. *)
Variable Node : Type.

(** *** token_to_ilabel *)

(** [None] is Python's [None]. *)
Definition token_to_ilabel (grammar : Grammar DFA) (type_ : Z) (value : string)
  : option Z :=
  match (if decide (type_ = NAME) then Dict.get value (keywords grammar) else None) with
  | Some l => Some l
  | None => Dict.get type_ (tokens grammar)
  end.

(** *** StackNode and the parser state *)

Record StackNode : Type := mkStackNode {
  dfa : DFA;
  nodes : list Node
}.

(** [StackNode(dfa)] *)
Definition StackNode_new (d : DFA) : StackNode := mkStackNode d [].

(** The [nonterminal] property. *)
Definition nonterminal (sn : StackNode) : string := from_rule (dfa sn).

Record PState : Type := mkPState {
  stack : list StackNode;       (* top first *)
  rootnode : option Node
}.

Definition py_order (st : PState) : list StackNode := rev (stack st).

(** The nodes the frames hold, from the bottom frame to the top one, each
    frame's from left to right. *)
Definition pending (s : list StackNode) : list Node := flat_map nodes (rev s).

(** *** The monad of parser methods *)

Definition M (A : Type) : Type := PState -> outcome A * PState.

#[global] Instance M_ret : MRet M := fun A a st => (Ret a, st).
#[global] Instance M_bind : MBind M := fun A B f m st =>
  match m st with
  | (Ret a, st') => f a st'
  | (Raise e, st') => (Raise e, st')
  end.

Definition raise {A : Type} (e : exn) : M A := fun st => (Raise e, st).

(** [InternalParseError(msg, type, value, start_pos)]: the constructor
    formats its message with [tokenize.tok_name[type]], so a type without a
    name is a KeyError.  Of the exception the four attributes are kept, not
    the message text. *)
Definition InternalParseError_new (msg : string) (type_ : Z) (value : string)
    (start_pos : pos) : outcome exn :=
  match Dict.get type_ tok_name with
  | Some _ => Ret (InternalParseError msg type_ value start_pos)
  | None => Raise KeyError
  end.

(** [raise InternalParseError(msg, type, value, start_pos)] *)
Definition raise_InternalParseError {A : Type} (msg : string) (type_ : Z)
    (value : string) (start_pos : pos) : M A :=
  match InternalParseError_new msg type_ value start_pos with
  | Ret e => raise e
  | Raise e => raise e
  end.
Definition lift {A : Type} (o : outcome A) : M A := fun st => (o, st).
Definition get_stack : M (list StackNode) := fun st => (Ret (stack st), st).
Definition set_stack (s : list StackNode) : M unit :=
  fun st => (Ret tt, mkPState s (rootnode st)).
Definition get_rootnode : M (option Node) := fun st => (Ret (rootnode st), st).
Definition set_rootnode (n : Node) : M unit :=
  fun st => (Ret tt, mkPState (stack st) (Some n)).

(** [self.stack[-1].nodes.append(n)]; IndexError on an empty stack. *)
Definition append_tos (n : Node) : M unit :=
  s ← get_stack;
  match s with
  | [] => raise IndexError
  | tos :: rest => set_stack (mkStackNode (dfa tos) (nodes tos ++ [n]) :: rest)
  end.

(** [self.stack[-1].dfa = d] *)
Definition set_tos_dfa (d : DFA) : M unit :=
  s ← get_stack;
  match s with
  | [] => raise IndexError
  | tos :: rest => set_stack (mkStackNode d (nodes tos) :: rest)
  end.

(** [self.stack.append(sn)] *)
Definition push (sn : StackNode) : M unit :=
  s ← get_stack; set_stack (sn :: s).

(** *** The parser instance *)

Variable grammar : Grammar DFA.
Variable convert_node : Grammar DFA -> string -> list Node -> outcome Node.
Variable convert_leaf : Grammar DFA -> Z -> string -> string -> pos -> outcome Node.

(** [PgenParser.__init__]: the state of a fresh parser for [start]. *)
Definition init (start : Z) : outcome PState :=
  match Dict.get start (number2nonterminal grammar) with
  | None => Raise KeyError
  | Some start_nonterminal =>
      match Dict.get start_nonterminal (_nonterminal_to_dfas grammar) with
      | None => Raise KeyError
      | Some [] => Raise IndexError
      | Some (d :: _) => Ret (mkPState [StackNode_new d] None)
      end
  end.

(** *** _pop *)

Definition _pop : M unit :=
  s ← get_stack;
  match s with
  | [] => raise IndexError                     (* pop from empty list *)
  | tos :: rest =>
      set_stack rest;;
      new_node ← match nodes tos with
                 | [child] => mret child
                 | _ => lift (convert_node grammar (from_rule (dfa tos)) (nodes tos))
                 end;
      s' ← get_stack;
      match s' with
      | [] => set_rootnode new_node            (* except IndexError *)
      | _ :: _ => append_tos new_node
      end
  end.

(** [n] calls of [self._pop()] in a row, as the loops of [add_token] and
    [parse] make them. *)
Fixpoint pop_times (n : nat) : M unit :=
  match n with
  | O => mret tt
  | S k => _pop;; pop_times k
  end.

(** *** Python values seen by the dynamically typed parts *)

#[local] Set Warnings "-register-all".
Inductive pyval : Type :=
| VNone
| VBool (b : bool)
| VInt (z : Z)
| VStr (s : string)
| VTuple (elts : list pyval)
| VList (elts : list pyval)
| VDict (entries : list (pyval * pyval))
| VStackNode (sn : StackNode).

(** [bool(v)] *)
Definition truthy (v : pyval) : bool :=
  match v with
  | VNone => false
  | VBool b => b
  | VInt z => negb (Z.eqb z 0)
  | VStr s => negb (String.eqb s "")
  | VTuple l | VList l => negb (Nat.eqb (length l) 0)
  | VDict l => negb (Nat.eqb (length l) 0)
  | VStackNode _ => true
  end.

(** *** The introspection methods of Stack *)

(** [Stack] subclasses [list] and holds whatever is appended to it; the
    engine appends [StackNode] objects. *)
Definition Stack : Type := list pyval.       (* top first *)
Definition Stack_of (st : PState) : Stack := map VStackNode (stack st).

Definition char_str (c : Ascii.ascii) : pyval := VStr (String c "").

(** Is [k == i] for a dict key [k] and an int [i]. *)
Definition key_is_int (i : Z) (k : pyval) : bool :=
  match k with
  | VInt z => Z.eqb z i
  | VBool b => Z.eqb (if b then 1 else 0) i
  | _ => false
  end.

(** [v[i]] for an index [i >= 0]. *)
Definition subscript (v : pyval) (i : nat) : outcome pyval :=
  match v with
  | VTuple l | VList l => of_option IndexError (l !! i)
  | VStr s => of_option IndexError (char_str <$> String.get i s)
  | VDict d =>
      of_option KeyError (snd <$> find (fun kv => key_is_int (Z.of_nat i) (fst kv)) d)
  | VNone | VBool _ | VInt _ | VStackNode _ => Raise TypeError
  end.

(** [iter(v)], run to its end. *)
Definition iterate (v : pyval) : outcome (list pyval) :=
  match v with
  | VTuple l | VList l => Ret l
  | VStr s => Ret (map char_str (list_ascii_of_string s))
  | VDict d => Ret (map fst d)
  | VNone | VBool _ | VInt _ | VStackNode _ => Raise TypeError
  end.

(** [a, b, c = v] *)
Definition unpack3 (v : pyval) : outcome (pyval * pyval * pyval) :=
  l ← iterate v;
  match l with
  | [a; b; c] => Ret (a, b, c)
  | _ => Raise ValueError
  end.

Fixpoint hashable (v : pyval) : bool :=
  match v with
  | VList _ | VDict _ => false
  | VTuple l => forallb hashable l
  | VNone | VBool _ | VInt _ | VStr _ | VStackNode _ => true
  end.

(** [d[k]] for a dict [d] keyed by ints and any value [k]. *)
Definition get_by_value {V : Type} (k : pyval) (d : dict Z V) : outcome V :=
  if hashable k then
    match k with
    | VInt z => of_option KeyError (Dict.get z d)
    | VBool b => of_option KeyError (Dict.get (if b then 1 else 0) d)
    | _ => Raise KeyError
    end
  else Raise TypeError.

Definition get_tos_nodes (self : Stack) : outcome pyval :=
  tos ← of_option IndexError (head self);
  x ← subscript tos 2;
  subscript x 1.

Definition get_tos_first_tokens (self : Stack) (grammar : Grammar DFA)
  : outcome (list string) :=
  tos ← of_option IndexError (head self);
  let inv_tokens := Dict.invert (tokens grammar) in
  let inv_keywords := Dict.invert (keywords grammar) in
  '(dfa, state, nodes) ← unpack3 tos;
  let check :=
    firsts ← (x ← subscript dfa 1; iterate x);
    mapM (fun first =>
            match get_by_value first inv_keywords with
            | Ret kw => Ret kw
            | Raise KeyError =>
                t ← get_by_value first inv_tokens;
                of_option KeyError (Dict.get t tok_name)
            | Raise e => Raise e
            end) firsts in
  sorted <$> check.

(** *** add_token *)

(** The bound method [self.add_token] as the hook receives it. *)
Definition Reentry : Type := Z -> string -> pos -> string -> M pyval.

(** [error_recovery(grammar, stack, type_, value, start_pos, prefix,
    add_token)].  The [stack] argument is the live object [self.stack]:
    the hook reads and writes it through the state it runs in. *)
Definition Hook : Type :=
  Grammar DFA -> Z -> string -> pos -> string -> Reentry -> M unit.

(** A hook that recovers nothing: every dead end is a syntax error. *)
Definition strict_recovery : Hook :=
  fun _ _ _ _ _ _ => raise (Raised "ParserSyntaxError").

(** [dfa.ilabel_to_plan[ilabel]]; the key [None] is in no table. *)
Definition lookup_plan (d : DFA) (ilabel : option Z) : option (Plan DFA) :=
  match ilabel with
  | Some l => Dict.get l (ilabel_to_plan d)
  | None => None
  end.

(** [for push in pushes: stack.append(StackNode(push))] *)
Fixpoint push_all (pushes : list DFA) : M unit :=
  match pushes with
  | [] => mret tt
  | p :: ps => push (StackNode_new p);; push_all ps
  end.

Section Hooked.

Variable error_recovery : Hook.

(** The [while True] loop of [add_token].  [Some plan] is the [break],
    [None] the [return] after the hook.  Every round but the last pops a
    frame, so [n] rounds are enough for a stack of [n] frames. *)
Fixpoint find_plan (n : nat) (reentry : Reentry) (ilabel : option Z)
    (type_ : Z) (value : string) (start_pos : pos) (prefix : string)
  : M (option (Plan DFA)) :=
  s ← get_stack;
  match s with
  | [] => raise_InternalParseError "too much input" type_ value start_pos
  | tos :: _ =>
      match lookup_plan (dfa tos) ilabel with
      | Some plan => mret (Some plan)
      | None =>
          if is_final (dfa tos) then
            match n with
            | O => raise Diverged
            | S n' =>
                _pop;;
                find_plan n' reentry ilabel type_ value start_pos prefix
            end
          else
            error_recovery grammar type_ value start_pos prefix reentry;;
            mret None
      end
  end.

Definition add_token_with (reentry : Reentry)
    (type_ : Z) (value : string) (start_pos : pos) (prefix : string)
  : M pyval :=
  let ilabel := token_to_ilabel grammar type_ value in
  s ← get_stack;
  found ← find_plan (length s) reentry ilabel type_ value start_pos prefix;
  match found with
  | None => mret VNone
  | Some plan =>
      set_tos_dfa (next_dfa plan);;
      push_all (dfa_pushes plan);;
      leaf ← lift (convert_leaf grammar type_ value prefix start_pos);
      append_tos leaf;;
      mret VNone
  end.

(** [add_token] with [depth] nested re-entries left to the hook; one
    more is Python's RecursionError. *)
Fixpoint add_token (depth : nat) : Reentry :=
  add_token_with
    match depth with
    | O => fun _ _ _ _ => raise RecursionError
    | S d => add_token d
    end.

Definition reentry (depth : nat) : Reentry :=
  match depth with
  | O => fun _ _ _ _ => raise RecursionError
  | S d => add_token d
  end.

(** *** parse *)

(** The [for] loop; [last] holds the loop variables, unbound ([None])
    until the first token. *)
Fixpoint feed (depth : nat) (tokens : list Token) (last : option Token)
  : M (option Token) :=
  match tokens with
  | [] => mret last
  | t :: ts =>
      add_token depth (tk_type t) (tk_value t) (tk_start_pos t) (tk_prefix t);;
      feed depth ts (Some t)
  end.

(** [while self.stack and self.stack[-1].dfa.is_final: self._pop()] *)
Fixpoint drain (n : nat) : M unit :=
  s ← get_stack;
  match s with
  | [] => mret tt
  | tos :: _ =>
      if is_final (dfa tos) then
        match n with
        | O => raise Diverged
        | S n' => _pop;; drain n'
        end
      else mret tt
  end.

Definition parse (depth : nat) (tokens : list Token) : M (option Node) :=
  last ← feed depth tokens None;
  s ← get_stack;
  drain (length s);;
  s' ← get_stack;
  match s' with
  | _ :: _ =>
      match last with
      | None => raise (UnboundLocalError "type_")
      | Some t =>
          raise_InternalParseError "incomplete input"
            (tk_type t) (tk_value t) (tk_start_pos t)
      end
  | [] => get_rootnode
  end.

End Hooked.

End Engine.

Arguments mkStackNode {DFA Node} _ _.
Arguments dfa {DFA Node} _.
Arguments nodes {DFA Node} _.
Arguments mkPState {DFA Node} _ _.
Arguments stack {DFA Node} _.
Arguments rootnode {DFA Node} _.
Arguments StackNode_new {DFA Node} _.
Arguments pending {DFA Node} _.

(** ** The language of a grammar *)

Section Language.

Variable DFA : Type.
Variable from_rule : DFA -> string.
Variable is_final : DFA -> bool.
Variable ilabel_to_plan : DFA -> dict Z (Plan DFA).
Variable NAME : Z.
Variable tok_name : dict Z string.
Variable grammar : Grammar DFA.

(** The engine as recognizer: it builds nothing ([unit] for nodes) and the
    hook recovers nothing.  A stream is accepted from [start_dfa] when
    [parse] returns: no dead end, no token too much, no input missing. *)
Definition recognize (start_dfa : DFA) (tokens : list Token)
  : outcome (option unit) * PState DFA unit :=
  parse DFA from_rule is_final ilabel_to_plan NAME tok_name unit grammar
    (fun _ _ _ => Ret tt) (fun _ _ _ _ _ => Ret tt)
    (strict_recovery DFA unit) 0 tokens
    (mkPState [StackNode_new start_dfa] None).

Definition accepts (start_dfa : DFA) (tokens : list Token) : bool :=
  match fst (recognize start_dfa tokens) with
  | Ret _ => true
  | Raise _ => false
  end.

End Language.

(** ** A concrete parser: [S: 'a' B], [B: 'b' | 'b' 'b'] *)

Module Example.

(** The concrete syntax tree the docstring of [PgenParser] describes. *)
#[local] Set Warnings "-register-all".
Inductive tree : Type :=
| Leaf (type_ : Z) (value : string) (prefix : string) (start_pos : pos)
| Nd (rule : string) (children : list tree).

Fixpoint tree_leaves (t : tree) : list tree :=
  match t with
  | Leaf _ _ _ _ => [t]
  | Nd _ cs => flat_map tree_leaves cs
  end.

Definition NAME : Z := 1.
Definition tok_name : dict Z string := [(1, "NAME")].

(** DFA states by number: 0, 1, 2 belong to [S], 3, 4, 5 to [B]. *)
Definition from_rule (d : nat) : string :=
  if Nat.ltb d 3 then "S" else "B".
Definition is_final (d : nat) : bool :=
  match d with
  | 2%nat | 4%nat | 5%nat => true
  | _ => false
  end.
Definition ilabel_to_plan (d : nat) : dict Z (Plan nat) :=
  match d with
  | 0%nat => [(1, mkPlan 1%nat [])]
  | 1%nat => [(2, mkPlan 2%nat [4%nat])]
  | 3%nat => [(2, mkPlan 4%nat [])]
  | 4%nat => [(2, mkPlan 5%nat [])]
  | _ => []
  end.

Definition grammar : Grammar nat :=
  mkGrammar [("a", 1); ("b", 2)] [(NAME, 3)]
            [(256, "S"); (257, "B")]
            [("S", [0; 1; 2]%nat); ("B", [3; 4; 5]%nat)].

Definition convert_node (g : Grammar nat) (rule : string) (cs : list tree)
  : outcome tree := Ret (Nd rule cs).
Definition convert_leaf (g : Grammar nat) (type_ : Z) (value prefix : string)
    (start_pos : pos) : outcome tree := Ret (Leaf type_ value prefix start_pos).

(** Converters that fail. *)
Definition no_node (g : Grammar nat) (rule : string) (cs : list tree)
  : outcome tree := Raise (Raised "convert_node").
Definition no_leaf (g : Grammar nat) (type_ : Z) (value prefix : string)
    (start_pos : pos) : outcome tree := Raise (Raised "convert_leaf").

(** A hook that drops the token: it returns and touches nothing. *)
Definition skip_recovery : Hook nat tree := fun _ _ _ _ _ _ => mret tt.

(** A frame as the introspection methods take it: [(dfa, state, node)] with
    [dfa = (states, first)] and [node = (type, children)]. *)
Definition tuple_frame : pyval nat tree :=
  VTuple nat tree
    [VTuple nat tree
       [VList nat tree [];
        VDict nat tree [(VInt nat tree 1, VInt nat tree 1);
                        (VInt nat tree 3, VInt nat tree 1)]];
     VInt nat tree 0;
     VTuple nat tree [VInt nat tree 256; VList nat tree []]].

Definition tok (v : string) (col : Z) : Token := mkToken NAME v (1, col) "".

Definition st0 : PState nat tree := mkPState [StackNode_new 0%nat] None.

Definition run (tokens : list Token) :=
  parse nat from_rule is_final ilabel_to_plan NAME tok_name tree grammar
    convert_node convert_leaf (strict_recovery nat tree) 0 tokens st0.

End Example.

(** * Properties *)

Section Properties.

Variable DFA : Type.
Variable from_rule : DFA -> string.
Variable is_final : DFA -> bool.
Variable ilabel_to_plan : DFA -> dict Z (Plan DFA).
Variable NAME : Z.
Variable tok_name : dict Z string.
Variable Node : Type.
Variable grammar : Grammar DFA.
Variable convert_node : Grammar DFA -> string -> list Node -> outcome Node.
Variable convert_leaf : Grammar DFA -> Z -> string -> string -> pos -> outcome Node.

#[local] Abbreviation State := (PState DFA Node).
#[local] Abbreviation Frame := (StackNode DFA Node).
#[local] Abbreviation token_to_ilabel := (token_to_ilabel DFA NAME).
#[local] Abbreviation lookup_plan := (lookup_plan DFA ilabel_to_plan).
#[local] Abbreviation _pop := (_pop DFA from_rule Node grammar convert_node).
#[local] Abbreviation init := (init DFA Node grammar).
#[local] Abbreviation find_plan :=
  (find_plan DFA from_rule is_final ilabel_to_plan tok_name Node grammar convert_node).
#[local] Abbreviation add_token_with :=
  (add_token_with DFA from_rule is_final ilabel_to_plan NAME tok_name Node grammar
     convert_node convert_leaf).
#[local] Abbreviation add_token :=
  (add_token DFA from_rule is_final ilabel_to_plan NAME tok_name Node grammar
     convert_node convert_leaf).
#[local] Abbreviation reentry :=
  (reentry DFA from_rule is_final ilabel_to_plan NAME tok_name Node grammar
     convert_node convert_leaf).
#[local] Abbreviation feed :=
  (feed DFA from_rule is_final ilabel_to_plan NAME tok_name Node grammar
     convert_node convert_leaf).
#[local] Abbreviation drain := (drain DFA from_rule is_final Node grammar convert_node).
#[local] Abbreviation parse :=
  (parse DFA from_rule is_final ilabel_to_plan NAME tok_name Node grammar
     convert_node convert_leaf).
#[local] Abbreviation get_tos_nodes := (get_tos_nodes DFA Node).
#[local] Abbreviation get_tos_first_tokens := (get_tos_first_tokens DFA tok_name Node).

(** Unfolding of the monad's plumbing. *)
Ltac munfold :=
  unfold append_tos, set_tos_dfa, push in *;
  unfold mbind, mret, M_bind, M_ret, raise, lift, get_stack, set_stack,
    get_rootnode, set_rootnode in *.
Ltac msimpl := munfold; simpl in *.
(** The raise on an empty stack is no return, whichever exception it is. *)
Ltac no_frame :=
  try discriminate;
  try (destruct (Dict.get _ tok_name); discriminate).

(** ** token_to_ilabel *)

Lemma token_to_ilabel_keyword g value l :
  Dict.get value (keywords g) = Some l ->
  token_to_ilabel g NAME value = Some l.
Proof.
  intros Hkw. unfold token_to_ilabel.
  destruct (decide (NAME = NAME)) as [_|Hne]; [|congruence].
  now rewrite Hkw.
Qed.

Lemma token_to_ilabel_plain g type_ value :
  ~ (type_ = NAME /\ is_Some (Dict.get value (keywords g))) ->
  token_to_ilabel g type_ value = Dict.get type_ (tokens g).
Proof.
  intros Hno. unfold token_to_ilabel.
  destruct (decide (type_ = NAME)) as [Heq|Hne]; [|reflexivity].
  destruct (Dict.get value (keywords g)) as [l|] eqn:Hkw; [|reflexivity].
  exfalso. apply Hno. split; [assumption | eexists; reflexivity].
Qed.

(** C8: a NAME token whose value is a registered reserved word resolves to
    the reserved word's label, and so never to a different label registered
    for the type NAME; a token that is no reserved-word NAME and whose type
    has no registered label resolves to [None], and nothing is raised (the
    resolver is a total function into [option Z]). *)
Theorem token_to_ilabel_shadowing (g : Grammar DFA) (type_ : Z) (value : string) :
  (type_ = NAME ->
   forall l, Dict.get value (keywords g) = Some l ->
     token_to_ilabel g type_ value = Some l /\
     forall l', Dict.get NAME (tokens g) = Some l' -> l' <> l ->
       token_to_ilabel g type_ value <> Some l')
  /\
  (~ (type_ = NAME /\ is_Some (Dict.get value (keywords g))) ->
   Dict.get type_ (tokens g) = None ->
   token_to_ilabel g type_ value = None).
Proof.
  split.
  - intros -> l Hkw. rewrite (token_to_ilabel_keyword _ _ _ Hkw).
    split; [reflexivity|]. intros l' _ Hne. congruence.
  - intros Hno Hty. now rewrite token_to_ilabel_plain.
Qed.

(** ** _pop *)

Lemma pop_single (tos : Frame) (rest : list Frame) (root : option Node) (child : Node) :
  nodes tos = [child] ->
  _pop (mkPState (tos :: rest) root) =
    (Ret tt,
     match rest with
     | [] => mkPState [] (Some child)
     | parent :: rest' =>
         mkPState (mkStackNode (dfa parent) (nodes parent ++ [child]) :: rest') root
     end).
Proof.
  intros Hn. unfold _pop. msimpl. rewrite Hn. now destruct rest.
Qed.

Lemma pop_build (tos : Frame) (rest : list Frame) (root : option Node) (n : Node) :
  length (nodes tos) <> 1%nat ->
  convert_node grammar (from_rule (dfa tos)) (nodes tos) = Ret n ->
  _pop (mkPState (tos :: rest) root) =
    (Ret tt,
     match rest with
     | [] => mkPState [] (Some n)
     | parent :: rest' =>
         mkPState (mkStackNode (dfa parent) (nodes parent ++ [n]) :: rest') root
     end).
Proof.
  intros Hlen Hcn. unfold _pop. msimpl.
  destruct (nodes tos) as [|c [|c' cs]] eqn:Hn; simpl in Hlen; try congruence;
    rewrite Hcn; now destruct rest.
Qed.

(** C5: popping the top frame [tos].  With exactly one child the child is
    the result, whatever the internal-node converter would do (nothing is
    asked of [convert_node]: it is not called); otherwise the result is what
    [convert_node] returns for the frame's nonterminal and its children in
    order.  The result goes last into the parent's children, or becomes
    [rootnode] when no frame is left. *)
Theorem pop_reduction (tos : Frame) (rest : list Frame) (root : option Node)
    (new_node : Node) :
  nodes tos = [new_node] \/
  (length (nodes tos) <> 1%nat /\
   convert_node grammar (from_rule (dfa tos)) (nodes tos) = Ret new_node) ->
  _pop (mkPState (tos :: rest) root) =
    (Ret tt,
     match rest with
     | [] => mkPState [] (Some new_node)
     | parent :: rest' =>
         mkPState (mkStackNode (dfa parent) (nodes parent ++ [new_node]) :: rest') root
     end).
Proof.
  intros [Hone | [Hlen Hcn]].
  - now apply pop_single.
  - now apply pop_build.
Qed.

(** A reduction that returns leaves one frame less. *)
Lemma pop_length (st st' : State) :
  _pop st = (Ret tt, st') -> S (length (stack st')) = length (stack st).
Proof.
  destruct st as [[|tos rest] root]; unfold _pop; msimpl; [discriminate|].
  destruct (nodes tos) as [|c [|c' cs]];
    try destruct (convert_node _ _ _) as [n|e]; try discriminate;
    destruct rest; intros [= <-]; reflexivity.
Qed.

(** ** add_token *)

(** A frame the loop of [add_token] reduces: final, and without a plan for
    the label.  A dead end: the top frame has no plan and is not final. *)
#[local] Abbreviation stuck il :=
  (fun sn : Frame => lookup_plan (dfa sn) il = None /\ is_final (dfa sn) = true).
#[local] Abbreviation dead_end il st :=
  (match stack (st : State) with
   | tos :: _ => lookup_plan (dfa tos) il = None /\ is_final (dfa tos) = false
   | [] => False
   end).

Lemma stuck_dfas il (s s' : list Frame) :
  map dfa s = map dfa s' -> Forall (stuck il) s -> Forall (stuck il) s'.
Proof.
  intros Heq Hs.
  apply (proj1 (Forall_map dfa (fun d => lookup_plan d il = None /\ is_final d = true) s')).
  rewrite <- Heq. now apply Forall_map.
Qed.

Section WithHook.

Variable error_recovery : Hook DFA Node.

Lemma add_token_unfold (depth : nat) :
  add_token error_recovery depth = add_token_with error_recovery (reentry error_recovery depth).
Proof. destruct depth; reflexivity. Qed.

(** The loop and its caller, one round at a time. *)
Lemma find_plan_eq n re il ty v sp pf (st : State) :
  find_plan error_recovery n re il ty v sp pf st =
    match stack st with
    | [] =>
        (match Dict.get ty tok_name with
         | Some _ => Raise (InternalParseError "too much input" ty v sp)
         | None => Raise KeyError
         end, st)
    | tos :: _ =>
        match lookup_plan (dfa tos) il with
        | Some plan => (Ret (Some plan), st)
        | None =>
            if is_final (dfa tos) then
              match n with
              | O => (Raise Diverged, st)
              | S n' =>
                  match _pop st with
                  | (Ret _, st') => find_plan error_recovery n' re il ty v sp pf st'
                  | (Raise e, st') => (Raise e, st')
                  end
              end
            else
              match error_recovery grammar ty v sp pf re st with
              | (Ret _, st') => (Ret None, st')
              | (Raise e, st') => (Raise e, st')
              end
        end
    end.
Proof.
  destruct n; cbn [find_plan]; unfold mbind at 1, M_bind at 1, get_stack at 1;
    (destruct (stack st) as [|tos rest];
     [unfold raise_InternalParseError, InternalParseError_new;
      now destruct (Dict.get ty tok_name)|]);
    destruct (lookup_plan (dfa tos) il); try reflexivity;
    destruct (is_final (dfa tos)); try reflexivity;
    unfold mbind, M_bind;
    destruct (error_recovery _ _ _ _ _ _ _) as [[[]|e] st1]; reflexivity.
Qed.

Lemma add_token_eq depth ty v sp pf (st : State) :
  add_token error_recovery depth ty v sp pf st =
    match find_plan error_recovery (length (stack st)) (reentry error_recovery depth)
            (token_to_ilabel grammar ty v) ty v sp pf st with
    | (Ret None, st') => (Ret (VNone DFA Node), st')
    | (Ret (Some plan), st') =>
        (set_tos_dfa DFA Node (next_dfa plan);;
         push_all DFA Node (dfa_pushes plan);;
         leaf ← lift DFA Node (convert_leaf grammar ty v pf sp);
         append_tos DFA Node leaf;;
         mret (VNone DFA Node)) st'
    | (Raise e, st') => (Raise e, st')
    end.
Proof.
  rewrite add_token_unfold. unfold add_token_with.
  unfold mbind at 1, M_bind at 1, get_stack at 1.
  unfold mbind at 1, M_bind at 1.
  destruct (find_plan _ _ _ _ _ _ _ _ _) as [[[plan|]|e] st1]; reflexivity.
Qed.

Lemma find_plan_found n re il ty v sp pf (tos : Frame) rest root plan :
  lookup_plan (dfa tos) il = Some plan ->
  find_plan error_recovery n re il ty v sp pf (mkPState (tos :: rest) root) =
    (Ret (Some plan), mkPState (tos :: rest) root).
Proof. intros Hp. rewrite find_plan_eq. cbn [stack]. now rewrite Hp. Qed.

Lemma push_all_spec (pushes : list DFA) (st : State) :
  push_all DFA Node pushes st =
    (Ret tt, mkPState (rev (map StackNode_new pushes) ++ stack st) (rootnode st)).
Proof.
  revert st. induction pushes as [|p ps IH]; intros [s r]; [reflexivity|].
  simpl. msimpl. rewrite IH. simpl. now rewrite <- app_assoc.
Qed.

Lemma shift_eq ty v sp pf (tos : Frame) rest root plan leaf :
  convert_leaf grammar ty v pf sp = Ret leaf ->
  (set_tos_dfa DFA Node (next_dfa plan);;
   push_all DFA Node (dfa_pushes plan);;
   leaf ← lift DFA Node (convert_leaf grammar ty v pf sp);
   append_tos DFA Node leaf;;
   mret (VNone DFA Node)) (mkPState (tos :: rest) root) =
    (Ret (VNone DFA Node),
     mkPState
       match rev (dfa_pushes plan) with
       | [] => mkStackNode (next_dfa plan) (nodes tos ++ [leaf]) :: rest
       | last_push :: earlier =>
           mkStackNode last_push [leaf]
             :: map StackNode_new earlier
             ++ mkStackNode (next_dfa plan) (nodes tos) :: rest
       end
       root).
Proof.
  intros Hl. munfold. cbn [stack rootnode].
  rewrite push_all_spec, Hl. cbn [stack rootnode].
  rewrite <- map_rev. destruct (rev (dfa_pushes plan)); reflexivity.
Qed.

(** C6: when the top frame has a plan for the token's label, [add_token]
    sets the top frame's state to the plan's next state, pushes a frame with
    no children for each state of [dfa_pushes] in order, and appends the
    leaf the leaf converter built from the token to the frame that is on top
    after the pushes: the rebound frame when nothing was pushed, the frame
    pushed last otherwise. *)
Theorem add_token_shift depth ty v sp pf (tos : Frame) rest root plan leaf :
  lookup_plan (dfa tos) (token_to_ilabel grammar ty v) = Some plan ->
  convert_leaf grammar ty v pf sp = Ret leaf ->
  add_token error_recovery depth ty v sp pf (mkPState (tos :: rest) root) =
    (Ret (VNone DFA Node),
     mkPState
       match rev (dfa_pushes plan) with
       | [] => mkStackNode (next_dfa plan) (nodes tos ++ [leaf]) :: rest
       | last_push :: earlier =>
           mkStackNode last_push [leaf]
             :: map StackNode_new earlier
             ++ mkStackNode (next_dfa plan) (nodes tos) :: rest
       end
       root).
Proof.
  intros Hp Hl. rewrite add_token_eq.
  rewrite (find_plan_found _ _ _ _ _ _ _ _ _ _ _ Hp).
  now apply shift_eq.
Qed.

(** C7: when the top frame has no plan for the token's label.  In a final
    state the frame is popped by reduction: it is taken off the stack and
    its result (its only child, or else the node [convert_node] builds from
    its nonterminal and children) goes last into the children of the frame
    below, or becomes [rootnode] when none is left; the token is then
    looked up again from that state.  In a state that is not final the hook
    runs on the live state with the grammar, the token's type, value,
    position and prefix and [add_token] as re-entry; [add_token] then
    returns None in the state the hook left, or lets the hook's exception
    through: the engine appends no leaf, rebinds no state and raises
    nothing itself. *)
Theorem add_token_no_transition depth ty v sp pf (tos : Frame) rest root :
  lookup_plan (dfa tos) (token_to_ilabel grammar ty v) = None ->
  (is_final (dfa tos) = true ->
   forall new_node,
     nodes tos = [new_node] \/
     (length (nodes tos) <> 1%nat /\
      convert_node grammar (from_rule (dfa tos)) (nodes tos) = Ret new_node) ->
     add_token error_recovery depth ty v sp pf (mkPState (tos :: rest) root) =
     add_token error_recovery depth ty v sp pf
       match rest with
       | [] => mkPState [] (Some new_node)
       | parent :: rest' =>
           mkPState (mkStackNode (dfa parent) (nodes parent ++ [new_node]) :: rest')
                    root
       end)
  /\
  (is_final (dfa tos) = false ->
   add_token error_recovery depth ty v sp pf (mkPState (tos :: rest) root) =
     match error_recovery grammar ty v sp pf (reentry error_recovery depth)
             (mkPState (tos :: rest) root) with
     | (Ret _, st') => (Ret (VNone DFA Node), st')
     | (Raise e, st') => (Raise e, st')
     end).
Proof.
  intros Hp. split.
  - intros Hf new_node Hnew.
    assert (_pop (mkPState (tos :: rest) root) =
              (Ret tt,
               match rest with
               | [] => mkPState [] (Some new_node)
               | parent :: rest' =>
                   mkPState (mkStackNode (dfa parent) (nodes parent ++ [new_node]) :: rest')
                            root
               end)) as Hpop.
    { destruct Hnew as [Hone | [Hlen Hcn]];
        [now apply pop_single | now apply pop_build]. }
    rewrite (add_token_eq _ _ _ _ _ (mkPState (tos :: rest) root)), find_plan_eq.
    cbn [stack length]. rewrite Hp, Hf, Hpop.
    rewrite add_token_eq. now destruct rest.
  - intros Hf. rewrite add_token_eq, find_plan_eq. cbn [stack]. rewrite Hp, Hf.
    destruct (error_recovery _ _ _ _ _ _ _) as [[[]|e] st1]; reflexivity.
Qed.

(** Only a frame with a plan ends the loop with a plan. *)
Lemma find_plan_some n re il ty v sp pf (st st' : State) plan :
  find_plan error_recovery n re il ty v sp pf st = (Ret (Some plan), st') ->
  exists tos rest, stack st' = tos :: rest /\ lookup_plan (dfa tos) il = Some plan.
Proof.
  revert st. induction n as [|n IH]; intros st; rewrite find_plan_eq;
    destruct (stack st) as [|tos rest] eqn:Hs; no_frame;
    destruct (lookup_plan (dfa tos) il) as [p|] eqn:Hp;
    try (intros [= <- <-]; eauto);
    destruct (is_final (dfa tos)); try discriminate;
    try (destruct (error_recovery _ _ _ _ _ _ _) as [[[]|e] st1]; discriminate).
  destruct (_pop st) as [[[]|e] st1]; [apply IH | discriminate].
Qed.

End WithHook.

(** ** Too much input *)

Section Returning.

(** The converters are caller-supplied and may raise; the facts below are
    about converters that return. *)
Hypothesis convert_node_returns :
  forall rule cs, exists n, convert_node grammar rule cs = Ret n.
Hypothesis convert_leaf_returns :
  forall ty v pf sp, exists n, convert_leaf grammar ty v pf sp = Ret n.

Lemma pop_returns (tos : Frame) rest root :
  exists st', _pop (mkPState (tos :: rest) root) = (Ret tt, st') /\
              map dfa (stack st') = map dfa rest.
Proof.
  destruct (decide (length (nodes tos) = 1%nat)) as [Hone|Hmany].
  - destruct (nodes tos) as [|c [|c' cs]] eqn:Hn; try discriminate.
    eexists. split; [apply pop_single; exact Hn|]. now destruct rest.
  - destruct (convert_node_returns (from_rule (dfa tos)) (nodes tos)) as [n Hn].
    eexists. split; [apply pop_build; [exact Hmany | exact Hn]|]. now destruct rest.
Qed.

Lemma pop_returns_node (tos : Frame) rest root :
  exists nd,
    _pop (mkPState (tos :: rest) root) =
      (Ret tt,
       match rest with
       | [] => mkPState [] (Some nd)
       | parent :: rest' =>
           mkPState (mkStackNode (dfa parent) (nodes parent ++ [nd]) :: rest') root
       end).
Proof.
  destruct (decide (length (nodes tos) = 1%nat)) as [Hone|Hmany].
  - destruct (nodes tos) as [|c [|c' cs]] eqn:Hn; try discriminate.
    exists c. apply pop_single. exact Hn.
  - destruct (convert_node_returns (from_rule (dfa tos)) (nodes tos)) as [nd Hn].
    exists nd. apply pop_build; assumption.
Qed.

(** Frames that are all final and without a plan are reduced one after
    the other, and the lookup then meets the empty stack. *)
Lemma find_plan_exhausted_state er n re il ty v sp pf (st : State) :
  (length (stack st) <= n)%nat ->
  Forall (stuck il) (stack st) ->
  exists st',
    find_plan er n re il ty v sp pf st =
      (match Dict.get ty tok_name with
       | Some _ => Raise (InternalParseError "too much input" ty v sp)
       | None => Raise KeyError
       end, st') /\
    stack st' = [] /\
    (stack st <> [] -> is_Some (rootnode st')).
Proof.
  revert st. induction n as [|n IH]; intros [s root] Hlen Hst;
    rewrite find_plan_eq; cbn [stack] in *.
  - destruct s; [|simpl in Hlen; lia].
    eexists. split; [reflexivity|]. split; [reflexivity | congruence].
  - destruct s as [|tos rest].
    { eexists. split; [reflexivity|]. split; [reflexivity | congruence]. }
    inversion Hst as [|? ? [Hp Hf] Hrest]; subst. rewrite Hp, Hf.
    destruct (pop_returns_node tos rest root) as [nd ->].
    destruct rest as [|parent rest'].
    + rewrite find_plan_eq. cbn [stack].
      eexists. split; [reflexivity|]. split; [reflexivity|]. intros _. cbn. eauto.
    + destruct (IH (mkPState (mkStackNode (dfa parent) (nodes parent ++ [nd]) :: rest') root))
        as (st' & -> & Hempty & Hroot).
      * cbn [stack length] in *. lia.
      * cbn [stack]. inversion Hrest as [|? ? Hparent Hrest']; subst. now constructor.
      * exists st'. split; [reflexivity|]. split; [exact Hempty|].
        intros _. apply Hroot. discriminate.
Qed.

(** When the lookup of [add_token] meets the empty stack after reductions
    (every frame was final and without a plan for the label), all frames
    have been reduced: the stack is empty and [rootnode] holds the tree of
    the input before the token.  What is raised there is "too much input"
    for a token type that has a name in [tok_name], KeyError for one that
    has none. *)
Theorem too_much_input_state er depth ty v sp pf (tos : Frame) rest root :
  Forall (fun sn => lookup_plan (dfa sn) (token_to_ilabel grammar ty v) = None /\
                    is_final (dfa sn) = true) (tos :: rest) ->
  exists new_root,
    add_token er depth ty v sp pf (mkPState (tos :: rest) root) =
      (match Dict.get ty tok_name with
       | Some _ => Raise (InternalParseError "too much input" ty v sp)
       | None => Raise KeyError
       end,
       mkPState [] (Some new_root)).
Proof.
  intros Hst. rewrite add_token_eq.
  destruct (find_plan_exhausted_state er (length (tos :: rest)) (reentry er depth)
              _ ty v sp pf (mkPState (tos :: rest) root) (Nat.le_refl _) Hst)
    as ([s' r'] & Hfp & Hempty & Hroot).
  cbn [stack rootnode] in *. rewrite Hfp. subst s'.
  destruct Hroot as [nr ->]; [discriminate|].
  exists nr. now destruct (Dict.get ty tok_name).
Qed.

End Returning.

(** ** parse *)

Lemma drain_eq n (st : State) :
  drain n st =
    match stack st with
    | [] => (Ret tt, st)
    | tos :: _ =>
        if is_final (dfa tos) then
          match n with
          | O => (Raise Diverged, st)
          | S n' =>
              match _pop st with
              | (Ret _, st') => drain n' st'
              | (Raise e, st') => (Raise e, st')
              end
          end
        else (Ret tt, st)
    end.
Proof.
  destruct n; cbn [drain]; unfold mbind at 1, M_bind at 1, get_stack at 1;
    destruct (stack st) as [|tos rest]; try reflexivity;
    destruct (is_final (dfa tos)); reflexivity.
Qed.

Lemma feed_cons er depth t ts last (st : State) :
  feed er depth (t :: ts) last st =
    match add_token er depth (tk_type t) (tk_value t) (tk_start_pos t) (tk_prefix t) st with
    | (Ret _, st1) => feed er depth ts (Some t) st1
    | (Raise e, st1) => (Raise e, st1)
    end.
Proof. reflexivity. Qed.

Lemma parse_eq er depth tokens (st : State) :
  parse er depth tokens st =
    match feed er depth tokens None st with
    | (Ret last, st1) =>
        match drain (length (stack st1)) st1 with
        | (Ret _, st2) =>
            match stack st2 with
            | [] => (Ret (rootnode st2), st2)
            | _ :: _ =>
                match last with
                | None => (Raise (UnboundLocalError "type_"), st2)
                | Some t =>
                    (match Dict.get (tk_type t) tok_name with
                     | Some _ =>
                         Raise (InternalParseError "incomplete input"
                                  (tk_type t) (tk_value t) (tk_start_pos t))
                     | None => Raise KeyError
                     end, st2)
                end
            end
        | (Raise e, st2) => (Raise e, st2)
        end
    | (Raise e, st1) => (Raise e, st1)
    end.
Proof.
  unfold parse. unfold mbind at 1, M_bind at 1.
  destruct (feed er depth tokens None st) as [[last|e] st1]; [|reflexivity].
  unfold mbind at 1, M_bind at 1, get_stack at 1.
  unfold mbind at 1, M_bind at 1.
  destruct (drain _ st1) as [[[]|e] st2]; [|reflexivity].
  unfold mbind, M_bind, get_stack.
  destruct (stack st2); [reflexivity|]. destruct last as [t|]; [|reflexivity].
  unfold raise_InternalParseError, InternalParseError_new.
  now destruct (Dict.get (tk_type t) tok_name).
Qed.

(** The bounds of the two loops are never met: a stack of [n] frames is
    reduced at most [n] times, and more rounds change nothing. *)
Lemma find_plan_fuel er n re il ty v sp pf (st : State) :
  (length (stack st) <= n)%nat ->
  find_plan er (S n) re il ty v sp pf st = find_plan er n re il ty v sp pf st.
Proof.
  revert st. induction n as [|n IH]; intros st Hlen;
    rewrite (find_plan_eq er (S _)); rewrite find_plan_eq;
    destruct (stack st) as [|tos rest] eqn:Hs; try reflexivity;
    cbn [length] in Hlen; try lia.
  destruct (lookup_plan (dfa tos) il); [reflexivity|].
  destruct (is_final (dfa tos)); [|reflexivity].
  destruct (_pop st) as [[[]|e] st1] eqn:Hpop; [|reflexivity].
  apply IH. apply pop_length in Hpop. rewrite Hs in Hpop. cbn [length] in Hpop. lia.
Qed.

Lemma drain_fuel n (st : State) :
  (length (stack st) <= n)%nat -> drain (S n) st = drain n st.
Proof.
  revert st. induction n as [|n IH]; intros st Hlen;
    rewrite (drain_eq (S _)); rewrite drain_eq;
    destruct (stack st) as [|tos rest] eqn:Hs; try reflexivity;
    cbn [length] in Hlen; try lia.
  destruct (is_final (dfa tos)); [|reflexivity].
  destruct (_pop st) as [[[]|e] st1] eqn:Hpop; [|reflexivity].
  apply IH. apply pop_length in Hpop. rewrite Hs in Hpop. cbn [length] in Hpop. lia.
Qed.

(** The loop variables after the [for] loop: those of the last token. *)
Lemma feed_last er depth tokens last l (st st' : State) :
  feed er depth tokens last st = (Ret l, st') ->
  l = match rev tokens with [] => last | t :: _ => Some t end.
Proof.
  revert last st. induction tokens as [|t ts IH]; intros last st.
  - now intros [= <- _].
  - rewrite feed_cons.
    destruct (add_token er depth _ _ _ _ st) as [[r|e] st1]; [|discriminate].
    intros Hf. apply IH in Hf. subst l. cbn [rev].
    destruct (rev ts); reflexivity.
Qed.

(** What [parse] does after a stream that was fed without an exception and
    drained.  With no frame left it returns [rootnode].  With frames left
    and a last token it raises "incomplete input" with the data of that
    token when its type has a name in [tok_name], and KeyError, from the
    constructor of the exception, when it has none; when the stream had no
    token it raises UnboundLocalError. *)
Lemma parse_after_drain er depth tokens last (st st1 st2 : State) :
  feed er depth tokens None st = (Ret last, st1) ->
  drain (length (stack st1)) st1 = (Ret tt, st2) ->
  parse er depth tokens st =
    match stack st2, rev tokens with
    | [], _ => (Ret (rootnode st2), st2)
    | _ :: _, [] => (Raise (UnboundLocalError "type_"), st2)
    | _ :: _, t :: _ =>
        (match Dict.get (tk_type t) tok_name with
         | Some _ =>
             Raise (InternalParseError "incomplete input"
                      (tk_type t) (tk_value t) (tk_start_pos t))
         | None => Raise KeyError
         end, st2)
    end.
Proof.
  intros Hf Hd. rewrite parse_eq, Hf, Hd.
  apply feed_last in Hf. subst last.
  destruct (stack st2); [reflexivity|]. destruct (rev tokens); reflexivity.
Qed.

(** C9: a fresh parser whose start state is final, fed the empty stream,
    raises nothing and returns as root what the internal-node converter
    builds from the start nonterminal and no children.  Nothing is asked of
    the leaf converter: it is not called. *)
Theorem parse_empty_stream start name d ds n :
  Dict.get start (number2nonterminal grammar) = Some name ->
  Dict.get name (_nonterminal_to_dfas grammar) = Some (d :: ds) ->
  from_rule d = name ->
  is_final d = true ->
  convert_node grammar name [] = Ret n ->
  init start = Ret (mkPState [StackNode_new d] None) /\
  forall er depth,
    parse er depth [] (mkPState [StackNode_new d] None) =
      (Ret (Some n), mkPState [] (Some n)).
Proof.
  intros Hs Hd Hr Hf Hn. split.
  - unfold init. now rewrite Hs, Hd.
  - intros er depth. rewrite parse_eq. cbn [feed mret M_ret stack length].
    rewrite drain_eq. cbn [stack StackNode_new dfa]. rewrite Hf.
    rewrite (pop_build _ _ _ n); [| simpl; lia | cbn [dfa nodes]; now subst name].
    rewrite drain_eq. reflexivity.
Qed.

(** [add_token] has no [return] with a value: what it returns is None. *)
Lemma add_token_returns_None er depth ty v sp pf (st st' : State) r :
  add_token er depth ty v sp pf st = (Ret r, st') -> r = VNone DFA Node.
Proof.
  rewrite add_token_eq.
  destruct (find_plan er _ _ _ _ _ _ _ _) as [[[plan|]|e] st1];
    [| now intros [= <- _] | discriminate].
  destruct st1 as [[|tos rest] root]; munfold; cbn [stack rootnode];
    [discriminate|]. rewrite push_all_spec. cbn [stack rootnode].
  repeat match goal with
         | |- context [match ?x with _ => _ end] => destruct x
         end; try discriminate; now intros [= <- _].
Qed.

(** ** The introspection methods *)

(** C10: on a non-empty stack of [StackNode] frames both introspection
    methods raise TypeError: a [StackNode] can neither be subscripted nor
    unpacked; neither method returns a value. *)
Theorem stack_introspection_fails (s : list Frame) (g : Grammar DFA) :
  s <> [] ->
  get_tos_nodes (map (VStackNode DFA Node) s) = Raise TypeError /\
  get_tos_first_tokens (map (VStackNode DFA Node) s) g = Raise TypeError.
Proof.
  destruct s as [|tos rest]; [congruence|]. intros _. split; reflexivity.
Qed.

(** ** More on _pop *)

(** Every reduction that returns has removed the top frame and handed one
    node to the frame below or to [rootnode]. *)
Lemma pop_inv (st st' : State) :
  _pop st = (Ret tt, st') ->
  exists tos rest new_node,
    stack st = tos :: rest /\
    st' = match rest with
          | [] => mkPState [] (Some new_node)
          | parent :: rest' =>
              mkPState (mkStackNode (dfa parent) (nodes parent ++ [new_node]) :: rest')
                       (rootnode st)
          end.
Proof.
  destruct st as [[|tos rest] root]; unfold _pop; msimpl; [discriminate|].
  destruct (nodes tos) as [|c [|c' cs]];
    try destruct (convert_node _ _ _) as [n|e]; try discriminate;
    destruct rest; intros [= <-]; do 3 eexists; split; reflexivity.
Qed.

(** [_pop] on an empty stack raises IndexError and changes nothing; when
    the converter raises, its exception comes through and the frame is
    gone all the same, with nothing attached to the frame below. *)
Theorem pop_raises (rest : list Frame) (root : option Node) :
  _pop (mkPState [] root) = (Raise IndexError, mkPState [] root) /\
  forall tos e,
    length (nodes tos) <> 1%nat ->
    convert_node grammar (from_rule (dfa tos)) (nodes tos) = Raise e ->
    _pop (mkPState (tos :: rest) root) = (Raise e, mkPState rest root).
Proof.
  split; [reflexivity|]. intros tos e Hlen He. unfold _pop. msimpl.
  destruct (nodes tos) as [|c [|c' cs]]; simpl in Hlen; try congruence;
    now rewrite He.
Qed.

(** A reduction that returns leaves one frame less, keeps the DFA state of
    every frame that stays and the children of every frame but the new top,
    and touches [rootnode] only when no frame stays, setting it then. *)
Theorem pop_keeps_frames (st st' : State) :
  _pop st = (Ret tt, st') ->
  S (length (stack st')) = length (stack st) /\
  map dfa (stack st') = tail (map dfa (stack st)) /\
  tail (stack st') = tail (tail (stack st)) /\
  match stack st' with
  | [] => is_Some (rootnode st')
  | _ :: _ => rootnode st' = rootnode st
  end.
Proof.
  intros Hpop. apply pop_inv in Hpop as (tos & rest & n & Hs & ->).
  rewrite Hs. destruct rest as [|parent rest']; cbn; repeat split; eauto.
Qed.

(** ** Runs without a dead end *)

(** With the strict hook a returning [find_plan] has not met a dead end, so
    it runs the same with any hook and any re-entry. *)
Lemma find_plan_strict er n re re' il ty v sp pf (st st' : State) r :
  find_plan (strict_recovery DFA Node) n re il ty v sp pf st = (Ret r, st') ->
  find_plan er n re' il ty v sp pf st = (Ret r, st').
Proof.
  revert st. induction n as [|n IH]; intros st; rewrite !find_plan_eq;
    destruct (stack st) as [|tos rest]; no_frame;
    destruct (lookup_plan (dfa tos) il); try (intros H; exact H);
    destruct (is_final (dfa tos)); try discriminate.
  destruct (_pop st) as [[[]|e] st1]; [apply IH | discriminate].
Qed.

Lemma add_token_strict er d d' ty v sp pf (st st' : State) r :
  add_token (strict_recovery DFA Node) d ty v sp pf st = (Ret r, st') ->
  add_token er d' ty v sp pf st = (Ret r, st').
Proof.
  rewrite !add_token_eq.
  destruct (find_plan (strict_recovery DFA Node) _ _ _ _ _ _ _ st)
    as [[found|e] st1] eqn:Hfp; [|discriminate].
  now rewrite (find_plan_strict er _ _ (reentry er d') _ _ _ _ _ _ _ _ Hfp).
Qed.

Lemma feed_strict er d d' tokens last l (st st' : State) :
  feed (strict_recovery DFA Node) d tokens last st = (Ret l, st') ->
  feed er d' tokens last st = (Ret l, st').
Proof.
  revert last st. induction tokens as [|t ts IH]; intros last st;
    [intros H; exact H|].
  rewrite !feed_cons.
  destruct (add_token (strict_recovery DFA Node) d _ _ _ _ st)
    as [[r|e] st1] eqn:Hat; [|discriminate].
  rewrite (add_token_strict er d d' _ _ _ _ _ _ _ Hat). apply IH.
Qed.

(** When [parse] returns with the strict hook installed, it returns the
    same root in the same state with any other hook and any bound on
    re-entry: on such a stream the hook is never run. *)
Theorem strict_parse_any_hook er d d' tokens (st st' : State) root :
  parse (strict_recovery DFA Node) d tokens st = (Ret root, st') ->
  parse er d' tokens st = (Ret root, st').
Proof.
  rewrite !parse_eq.
  destruct (feed (strict_recovery DFA Node) d tokens None st)
    as [[last|e] st1] eqn:Hf; [|discriminate].
  now rewrite (feed_strict er d d' _ _ _ _ _ Hf).
Qed.


(** ** The draining loop of parse *)

Lemma drain_stops_gen n (st st' : State) :
  drain n st = (Ret tt, st') ->
  match stack st' with
  | [] => True
  | tos :: _ => is_final (dfa tos) = false
  end.
Proof.
  revert st. induction n as [|n IH]; intros st; rewrite drain_eq;
    destruct (stack st) as [|tos rest] eqn:Hs;
    try (intros [= <-]; now rewrite Hs);
    destruct (is_final (dfa tos)) eqn:Hf;
    try discriminate; try (intros [= <-]; now rewrite Hs).
  destruct (_pop st) as [[[]|e] st1]; [apply IH | discriminate].
Qed.

(** When the draining loop returns, no frame is left or the top frame is in
    a state that is not final; a stack that is already so is left as it
    is. *)
Theorem drain_stops (st : State) :
  (forall st', drain (length (stack st)) st = (Ret tt, st') ->
     match stack st' with
     | [] => True
     | tos :: _ => is_final (dfa tos) = false
     end) /\
  (match stack st with
   | [] => True
   | tos :: _ => is_final (dfa tos) = false
   end ->
   drain (length (stack st)) st = (Ret tt, st)).
Proof.
  split; [intros st'; apply drain_stops_gen|].
  rewrite drain_eq. destruct (stack st) as [|tos rest]; [reflexivity|].
  now intros ->.
Qed.

(** Promotion through a chain: when every frame is final, the top frame
    holds one node and the frames below hold none, draining makes that very
    node the root.  Nothing is asked of [convert_node]: it is not called at
    any depth. *)
Theorem drain_promotes_chain (top : Frame) (lower : list Frame) root c :
  nodes top = [c] ->
  Forall (fun sn => nodes sn = []) lower ->
  Forall (fun sn => is_final (dfa sn) = true) (top :: lower) ->
  drain (length (top :: lower)) (mkPState (top :: lower) root) =
    (Ret tt, mkPState [] (Some c)).
Proof.
  revert top root. induction lower as [|parent lower IH];
    intros top root Hc Hnone Hfinal;
    inversion Hfinal as [|? ? Hf Hfinal']; subst;
    cbn [length]; rewrite drain_eq; cbn [stack]; rewrite Hf;
    rewrite (pop_single _ _ _ _ Hc).
  - now rewrite drain_eq.
  - inversion Hnone as [|? ? Hp Hnone']; subst.
    apply (IH (mkStackNode (dfa parent) (nodes parent ++ [c]))).
    + cbn [nodes]. now rewrite Hp.
    + assumption.
    + inversion Hfinal' as [|? ? Hfp Hfl]; subst. now constructor.
Qed.

(** ** What add_token leaves *)

Lemma find_plan_keeps_root er n re il ty v sp pf (st st' : State) plan :
  find_plan er n re il ty v sp pf st = (Ret (Some plan), st') ->
  rootnode st' = rootnode st.
Proof.
  revert st. induction n as [|n IH]; intros st; rewrite find_plan_eq;
    destruct (stack st) as [|tos rest] eqn:Hs; no_frame;
    destruct (lookup_plan (dfa tos) il); try (now intros [= _ <-]);
    destruct (is_final (dfa tos)); try discriminate;
    try (destruct (er _ _ _ _ _ _ _) as [[[]|e] st1]; discriminate).
  destruct (_pop st) as [[[]|e] st1] eqn:Hpop; [|discriminate].
  intros Hfp.
  apply pop_inv in Hpop as (tos0 & rest0 & nd & Hs0 & ->).
  destruct rest0 as [|parent rest0].
  - rewrite find_plan_eq in Hfp. cbn [stack] in Hfp.
    destruct (Dict.get ty tok_name); discriminate.
  - now rewrite (IH _ Hfp).
Qed.

Lemma pop_times_S k (st : State) :
  pop_times DFA from_rule Node grammar convert_node (S k) st =
    match _pop st with
    | (Ret _, st1) => pop_times DFA from_rule Node grammar convert_node k st1
    | (Raise e, st1) => (Raise e, st1)
    end.
Proof. reflexivity. Qed.

(** The frames a returning reduction leaves are still final and without a
    plan where they were. *)
Lemma stuck_after_pop il k (st st1 : State) tos rest :
  stack st = tos :: rest ->
  _pop st = (Ret tt, st1) ->
  Forall (stuck il) (take k (stack st1)) ->
  Forall (stuck il) (take k rest).
Proof.
  intros Hs Hpop. apply pop_inv in Hpop as (tos0 & rest0 & nd & Hs0 & ->).
  rewrite Hs in Hs0. injection Hs0 as <- <-.
  apply stuck_dfas. rewrite <- !firstn_map. f_equal. now destruct rest.
Qed.

(** When the loop ends through the hook, the hook has run on the state
    that reducing the final frames without a plan left, at a dead end. *)
Lemma find_plan_hook er n re il ty v sp pf (st st' : State) :
  find_plan er n re il ty v sp pf st = (Ret None, st') ->
  exists k st1,
    pop_times DFA from_rule Node grammar convert_node k st = (Ret tt, st1) /\
    Forall (stuck il) (take k (stack st)) /\
    dead_end il st1 /\
    er grammar ty v sp pf re st1 = (Ret tt, st').
Proof.
  revert st. induction n as [|n IH]; intros st; rewrite find_plan_eq;
    destruct (stack st) as [|tos rest] eqn:Hs; no_frame;
    destruct (lookup_plan (dfa tos) il) eqn:Hp; try discriminate;
    destruct (is_final (dfa tos)) eqn:Hf; try discriminate;
    try (destruct (er _ _ _ _ _ _ st) as [[[]|e] st1] eqn:Her;
         [intros [= <-]; exists 0%nat, st;
          (split; [reflexivity|]); (split; [constructor|]);
          (split; [now rewrite Hs | exact Her])
         | discriminate]).
  destruct (_pop st) as [[[]|e] sta] eqn:Hpop; [|discriminate].
  intros Hfp. apply IH in Hfp as (k & st1 & Hk & Hst & Hde & Her).
  exists (S k), st1. split; [now rewrite pop_times_S, Hpop|].
  split; [|now split].
  cbn [take]. constructor; [now split|].
  eapply stuck_after_pop; eassumption.
Qed.

(** A call of [add_token] that returns has either shifted the token, or run
    the hook and returned from it.  After a shift the stack is not empty,
    the last child of its top frame is the leaf built from the token, and
    [rootnode] is what it was.  Otherwise the hook was run once, on the
    state that the reductions of the final frames without a plan for the
    label left, whose top frame is not final and has no plan either, and
    the call ended in the state the hook left. *)
Theorem add_token_returns_cases er depth ty v sp pf (st st' : State) r :
  add_token er depth ty v sp pf st = (Ret r, st') ->
  (exists leaf top rest,
     convert_leaf grammar ty v pf sp = Ret leaf /\
     stack st' = top :: rest /\
     last (nodes top) = Some leaf /\
     rootnode st' = rootnode st)
  \/
  (exists k st1,
     pop_times DFA from_rule Node grammar convert_node k st = (Ret tt, st1) /\
     Forall (fun sn => lookup_plan (dfa sn) (token_to_ilabel grammar ty v) = None /\
                       is_final (dfa sn) = true) (take k (stack st)) /\
     match stack st1 with
     | tos :: _ =>
         lookup_plan (dfa tos) (token_to_ilabel grammar ty v) = None /\
         is_final (dfa tos) = false
     | [] => False
     end /\
     er grammar ty v sp pf (reentry er depth) st1 = (Ret tt, st')).
Proof.
  rewrite add_token_eq.
  destruct (find_plan er _ _ _ _ _ _ _ st) as [[[plan|]|e] st1] eqn:Hfp;
    [| | discriminate]; intros Hat.
  - left. pose proof (find_plan_keeps_root _ _ _ _ _ _ _ _ _ _ _ Hfp) as Hroot.
    apply find_plan_some in Hfp as (tos & rest & Hs1 & _).
    destruct st1 as [s1 root1]. cbn [stack rootnode] in *. subst s1 root1.
    destruct (convert_leaf grammar ty v pf sp) as [leaf|e] eqn:Hleaf.
    + rewrite <- Hleaf in Hat.
      rewrite (shift_eq _ _ _ _ _ _ _ _ _ Hleaf) in Hat.
      injection Hat as _ <-.
      exists leaf. cbn [stack rootnode].
      destruct (rev (dfa_pushes plan)); do 2 eexists;
        (split; [reflexivity|]); (split; [reflexivity|]);
        (split; [|reflexivity]); cbn [nodes].
      * apply last_snoc.
      * reflexivity.
    + exfalso. revert Hat. munfold. cbn [stack rootnode].
      rewrite push_all_spec. discriminate.
  - right. injection Hat as _ <-. eapply find_plan_hook. exact Hfp.
Qed.

(** ** Exceptions out of add_token *)

Section Raising.

Hypothesis convert_node_returns :
  forall rule cs, exists n, convert_node grammar rule cs = Ret n.
Hypothesis convert_leaf_returns :
  forall ty v pf sp, exists n, convert_leaf grammar ty v pf sp = Ret n.

Lemma find_plan_raises er n re il ty v sp pf (st st' : State) e :
  (length (stack st) <= n)%nat ->
  find_plan er n re il ty v sp pf st = (Raise e, st') ->
  (Forall (stuck il) (stack st) /\
   e = match Dict.get ty tok_name with
       | Some _ => InternalParseError "too much input" ty v sp
       | None => KeyError
       end /\
   stack st' = [])
  \/
  (exists k st1,
     pop_times DFA from_rule Node grammar convert_node k st = (Ret tt, st1) /\
     Forall (stuck il) (take k (stack st)) /\
     dead_end il st1 /\
     er grammar ty v sp pf re st1 = (Raise e, st')).
Proof.
  revert st. induction n as [|n IH]; intros st Hlen; rewrite find_plan_eq;
    destruct (stack st) as [|tos rest] eqn:Hs;
    try (intros Hr; left; split; [constructor|]; split;
         [destruct (Dict.get ty tok_name); congruence | congruence]);
    try (cbn [length] in Hlen; lia);
    destruct (lookup_plan (dfa tos) il) eqn:Hp; try discriminate;
    destruct (is_final (dfa tos)) eqn:Hf;
    try (destruct (er _ _ _ _ _ _ st) as [[[]|e0] st1] eqn:Her;
         [discriminate
         | intros [= <- <-]; right; exists 0%nat, st;
           (split; [reflexivity|]); (split; [constructor|]);
           (split; [now rewrite Hs | exact Her])]).
  destruct st as [s root]. cbn [stack] in Hs. subst s.
  destruct (pop_returns_node convert_node_returns tos rest root) as [nd Hpop].
  rewrite Hpop. intros Hfp.
  apply IH in Hfp as [(Hst & He & Hempty) | (k & st1 & Hk & Hst & Hde & Her)].
  - left. split; [|now split]. constructor; [now split|].
    destruct rest as [|parent rest']; [constructor|].
    cbn [stack] in Hst. inversion Hst as [|? ? Hparent Hrest]; subst.
    now constructor.
  - right. exists (S k), st1. split; [now rewrite pop_times_S, Hpop|].
    split; [|now split].
    cbn [stack take]. constructor; [now split|].
    eapply (stuck_after_pop il k (mkPState (tos :: rest) root)); try eassumption.
    reflexivity.
  - destruct rest; cbn [stack length] in *; lia.
Qed.

(** The exceptions that come out of [add_token] when the converters return.
    When every frame is final and without a plan for the token's label, the
    frames are all reduced and the engine raises at the empty stack: "too
    much input" with the token's type, value and position when the type has
    a name in [tok_name], KeyError when it has none.  Any exception out of
    [add_token] is that one, from such a stack, or was raised by the hook,
    run at the dead end the reductions led to: the engine raises nothing
    while a frame is left. *)
Theorem add_token_raises_cases er depth ty v sp pf (st : State) :
  (Forall (fun sn => lookup_plan (dfa sn) (token_to_ilabel grammar ty v) = None /\
                     is_final (dfa sn) = true) (stack st) ->
   exists st',
     add_token er depth ty v sp pf st =
       (match Dict.get ty tok_name with
        | Some _ => Raise (InternalParseError "too much input" ty v sp)
        | None => Raise KeyError
        end, st') /\
     stack st' = [])
  /\
  (forall e st',
     add_token er depth ty v sp pf st = (Raise e, st') ->
     (Forall (fun sn => lookup_plan (dfa sn) (token_to_ilabel grammar ty v) = None /\
                        is_final (dfa sn) = true) (stack st) /\
      e = match Dict.get ty tok_name with
          | Some _ => InternalParseError "too much input" ty v sp
          | None => KeyError
          end /\
      stack st' = [])
     \/
     (exists k st1,
        pop_times DFA from_rule Node grammar convert_node k st = (Ret tt, st1) /\
        Forall (fun sn => lookup_plan (dfa sn) (token_to_ilabel grammar ty v) = None /\
                          is_final (dfa sn) = true) (take k (stack st)) /\
        match stack st1 with
        | tos :: _ =>
            lookup_plan (dfa tos) (token_to_ilabel grammar ty v) = None /\
            is_final (dfa tos) = false
        | [] => False
        end /\
        er grammar ty v sp pf (reentry er depth) st1 = (Raise e, st'))).
Proof.
  split.
  - intros Hst. rewrite add_token_eq.
    destruct (find_plan_exhausted_state convert_node_returns er
                (length (stack st)) (reentry er depth) _ ty v sp pf st
                (Nat.le_refl _) Hst) as (st' & -> & Hempty & _).
    exists st'. split; [|exact Hempty]. now destruct (Dict.get ty tok_name).
  - intros e st'. rewrite add_token_eq.
    destruct (find_plan er _ _ _ _ _ _ _ st) as [[[plan|]|e0] st1] eqn:Hfp.
    + intros Hat. exfalso.
      apply find_plan_some in Hfp as (tos & rest & Hs1 & _).
      destruct st1 as [s1 root1]. cbn [stack] in Hs1. subst s1.
      destruct (convert_leaf_returns ty v pf sp) as [leaf Hleaf].
      now rewrite (shift_eq _ _ _ _ _ _ _ _ _ Hleaf) in Hat.
    + discriminate.
    + intros [= <- <-]. eapply find_plan_raises; [|exact Hfp]. lia.
Qed.

End Raising.

(** ** The constructor *)

(** [PgenParser(...)] for [start]: KeyError when the number or its
    nonterminal is in no table, IndexError when the nonterminal has no DFA
    state; otherwise a parser with no root yet and one frame, without
    children, at the first DFA state of the start nonterminal. *)
Theorem init_outcome (start : Z) :
  (forall st, init start = Ret st <->
     exists name d ds,
       Dict.get start (number2nonterminal grammar) = Some name /\
       Dict.get name (_nonterminal_to_dfas grammar) = Some (d :: ds) /\
       st = mkPState [mkStackNode d []] None) /\
  (init start = Raise IndexError <->
     exists name,
       Dict.get start (number2nonterminal grammar) = Some name /\
       Dict.get name (_nonterminal_to_dfas grammar) = Some []) /\
  (init start = Raise KeyError <->
     Dict.get start (number2nonterminal grammar) = None \/
     exists name,
       Dict.get start (number2nonterminal grammar) = Some name /\
       Dict.get name (_nonterminal_to_dfas grammar) = None).
Proof.
  unfold init, StackNode_new.
  destruct (Dict.get start (number2nonterminal grammar)) as [name|] eqn:Hn;
    [destruct (Dict.get name (_nonterminal_to_dfas grammar)) as [[|d ds]|] eqn:Hd|];
    repeat split; try discriminate; eauto 6;
    try (intros [= <-]; eauto 6);
    intros; repeat match goal with
                   | H : exists _, _ |- _ => destruct H
                   | H : _ /\ _ |- _ => destruct H
                   | H : _ \/ _ |- _ => destruct H
                   end; congruence.
Qed.

(** ** More on the introspection methods *)

#[local] Instance str_le_total : Total str_le.
Proof. intros a b. apply String.leb_total. Qed.

(** When [get_tos_first_tokens] returns, the stack was not empty and the
    names come in ascending order. *)
Theorem get_tos_first_tokens_sorted (self : Stack DFA Node) (g : Grammar DFA) l :
  get_tos_first_tokens self g = Ret l ->
  self <> [] /\ Sorted str_le l.
Proof.
  unfold get_tos_first_tokens. destruct self as [|tos rest]; [discriminate|].
  intros H. split; [discriminate|]. cbn [head of_option mbind outcome_bind] in H.
  destruct (unpack3 DFA Node tos) as [[[d st] nd]|e]; [|discriminate].
  cbn in H.
  match type of H with
  | sorted <$> ?c = _ => destruct c as [names|e]; [|discriminate]
  end.
  injection H as <-. apply Sorted_merge_sort. apply _.
Qed.

End Properties.

(** ** Token preservation *)

Section TokenPreservation.

Variable DFA : Type.
Variable from_rule : DFA -> string.
Variable is_final : DFA -> bool.
Variable ilabel_to_plan : DFA -> dict Z (Plan DFA).
Variable NAME : Z.
Variable tok_name : dict Z string.
Variable Node : Type.
Variable grammar : Grammar DFA.
Variable convert_node : Grammar DFA -> string -> list Node -> outcome Node.
Variable convert_leaf : Grammar DFA -> Z -> string -> string -> pos -> outcome Node.

Hypothesis convert_node_returns :
  forall rule cs, exists n, convert_node grammar rule cs = Ret n.
Hypothesis convert_leaf_returns :
  forall ty v pf sp, exists n, convert_leaf grammar ty v pf sp = Ret n.

(** How the caller reads the leaves off its trees: a leaf is its own only
    leaf, an internal node has the leaves of its children in order. *)
Variable leaves : Node -> list Node.
Hypothesis leaves_leaf :
  forall ty v pf sp n, convert_leaf grammar ty v pf sp = Ret n -> leaves n = [n].
Hypothesis leaves_node :
  forall rule cs n, convert_node grammar rule cs = Ret n ->
    leaves n = flat_map leaves cs.

#[local] Abbreviation State := (PState DFA Node).
#[local] Abbreviation Frame := (StackNode DFA Node).
#[local] Abbreviation UState := (PState DFA unit).
#[local] Abbreviation unit_node :=
  (fun (_ : Grammar DFA) (_ : string) (_ : list unit) => Ret tt).
#[local] Abbreviation unit_leaf :=
  (fun (_ : Grammar DFA) (_ : Z) (_ : string) (_ : string) (_ : pos) => Ret tt).
#[local] Abbreviation strict := (strict_recovery DFA unit).

#[local] Abbreviation pop_u := (_pop DFA from_rule unit grammar unit_node).
#[local] Abbreviation find_plan_u :=
  (find_plan DFA from_rule is_final ilabel_to_plan tok_name unit grammar unit_node strict).
#[local] Abbreviation add_token_u :=
  (add_token DFA from_rule is_final ilabel_to_plan NAME tok_name unit grammar
     unit_node unit_leaf strict).
#[local] Abbreviation reentry_u :=
  (reentry DFA from_rule is_final ilabel_to_plan NAME tok_name unit grammar
     unit_node unit_leaf strict).
#[local] Abbreviation feed_u :=
  (feed DFA from_rule is_final ilabel_to_plan NAME tok_name unit grammar
     unit_node unit_leaf strict).
#[local] Abbreviation drain_u :=
  (drain DFA from_rule is_final unit grammar unit_node).

#[local] Abbreviation lookup_plan := (lookup_plan DFA ilabel_to_plan).
#[local] Abbreviation token_to_ilabel := (token_to_ilabel DFA NAME).
#[local] Abbreviation _pop := (_pop DFA from_rule Node grammar convert_node).
#[local] Abbreviation find_plan :=
  (find_plan DFA from_rule is_final ilabel_to_plan tok_name Node grammar convert_node).
#[local] Abbreviation add_token :=
  (add_token DFA from_rule is_final ilabel_to_plan NAME tok_name Node grammar
     convert_node convert_leaf).
#[local] Abbreviation reentry :=
  (reentry DFA from_rule is_final ilabel_to_plan NAME tok_name Node grammar
     convert_node convert_leaf).
#[local] Abbreviation feed :=
  (feed DFA from_rule is_final ilabel_to_plan NAME tok_name Node grammar
     convert_node convert_leaf).
#[local] Abbreviation drain := (drain DFA from_rule is_final Node grammar convert_node).
#[local] Abbreviation parse :=
  (parse DFA from_rule is_final ilabel_to_plan NAME tok_name Node grammar
     convert_node convert_leaf).

(** The raise on an empty stack is no return, whichever exception it is. *)
Ltac no_frame' :=
  try discriminate;
  try (destruct (Dict.get _ tok_name); discriminate).

(** The recognizer and the parser are in step when their stacks hold the
    same DFA states. *)
#[local] Abbreviation in_step su s := (map dfa (stack (su : UState)) = map dfa (stack (s : State))).

Lemma pending_cons (tos : Frame) rest :
  pending (tos :: rest) = pending rest ++ nodes tos.
Proof.
  unfold pending. cbn [rev]. rewrite flat_map_app. cbn [flat_map].
  now rewrite app_nil_r.
Qed.

(** A reduction keeps the leaves that are pending. *)
Lemma pop_leaves (tos : Frame) rest root :
  exists n,
    leaves n = flat_map leaves (nodes tos) /\
    _pop (mkPState (tos :: rest) root) =
      (Ret tt,
       match rest with
       | [] => mkPState [] (Some n)
       | parent :: rest' =>
           mkPState (mkStackNode (dfa parent) (nodes parent ++ [n]) :: rest') root
       end).
Proof.
  destruct (decide (length (nodes tos) = 1%nat)) as [Hone|Hmany].
  - destruct (nodes tos) as [|c [|c' cs]] eqn:Hn; try discriminate.
    exists c. split; [cbn; now rewrite app_nil_r|].
    apply pop_single. exact Hn.
  - destruct (convert_node_returns (from_rule (dfa tos)) (nodes tos)) as [n Hn].
    exists n. split; [now apply leaves_node in Hn|].
    apply pop_build; assumption.
Qed.

Lemma pop_u_returns (tos : StackNode DFA unit) rest root :
  exists su', pop_u (mkPState (tos :: rest) root) = (Ret tt, su') /\
              map dfa (stack su') = map dfa rest.
Proof. apply pop_returns. intros; eexists; reflexivity. Qed.

Lemma pop_keeps_leaves (tos parent : Frame) rest n :
  leaves n = flat_map leaves (nodes tos) ->
  flat_map leaves (pending (mkStackNode (dfa parent) (nodes parent ++ [n]) :: rest)) =
  flat_map leaves (pending (tos :: parent :: rest)).
Proof.
  intros Hn. rewrite !pending_cons. cbn [nodes].
  rewrite !flat_map_app. cbn [flat_map]. now rewrite Hn, app_nil_r, app_assoc.
Qed.

(** When the recognizer finds a plan, so does the parser, with any hook:
    the hook is not run. *)
Lemma find_plan_in_step er n re re_u il ty v sp pf (su su' : UState) (s : State) r :
  in_step su s ->
  find_plan_u n re_u il ty v sp pf su = (Ret r, su') ->
  exists plan s',
    r = Some plan /\
    find_plan er n re il ty v sp pf s = (Ret (Some plan), s') /\
    in_step su' s' /\
    flat_map leaves (pending (stack s')) = flat_map leaves (pending (stack s)) /\
    rootnode s' = rootnode s.
Proof.
  revert su s. induction n as [|n IH];
    intros [[|tu ru] rootu] [[|tos rest] root] Hstep Hu;
    rewrite find_plan_eq in Hu; cbn [stack map] in *; no_frame';
    rewrite find_plan_eq; cbn [stack];
    injection Hstep as Hd Hr; rewrite Hd in Hu;
    (destruct (lookup_plan (dfa tos) il) as [plan|] eqn:Hp;
     [ injection Hu as <- <-; exists plan; eexists;
       repeat split; cbn [stack map]; congruence |]);
    (destruct (is_final (dfa tos)) eqn:Hf; [| discriminate]);
    try discriminate.
  destruct (pop_u_returns tu ru rootu) as (su1 & Hpu & Hdu).
  rewrite Hpu in Hu.
  destruct (pop_leaves tos rest root) as (nd & Hl & Hpop). rewrite Hpop.
  destruct rest as [|parent rest].
  - exfalso. rewrite find_plan_eq in Hu.
    destruct (stack su1); [no_frame'|].
    destruct ru; discriminate.
  - destruct (IH su1 (mkPState (mkStackNode (dfa parent) (nodes parent ++ [nd]) :: rest) root))
      as (plan & s' & -> & Hfp & Hstep' & Hleaves & Hroot); [| exact Hu |].
    + cbn [stack map dfa]. now rewrite Hdu, Hr.
    + exists plan, s'. repeat split; try assumption.
      cbn [stack] in Hleaves. rewrite Hleaves. now apply pop_keeps_leaves.
Qed.

Lemma pending_app (s1 s2 : list Frame) :
  pending (s1 ++ s2) = pending s2 ++ pending s1.
Proof. unfold pending. now rewrite rev_app_distr, flat_map_app. Qed.

Lemma pending_new (ds : list DFA) :
  pending (map (@StackNode_new DFA Node) ds) = [].
Proof.
  induction ds as [|d ds IH]; [reflexivity|].
  cbn [map]. rewrite pending_cons, IH. reflexivity.
Qed.

Lemma dfa_new (N : Type) (ds : list DFA) :
  map dfa (map (@StackNode_new DFA N) ds) = ds.
Proof. induction ds as [|d ds IH]; [reflexivity|]. cbn. now rewrite IH. Qed.

(** A token the recognizer takes is shifted by the parser, with any hook:
    its leaf is the one more that is pending. *)
Lemma add_token_in_step er depth du ty v sp pf (su su' : UState) (s : State) r :
  in_step su s ->
  add_token_u du ty v sp pf su = (Ret r, su') ->
  exists leaf s',
    convert_leaf grammar ty v pf sp = Ret leaf /\
    add_token er depth ty v sp pf s = (Ret (VNone DFA Node), s') /\
    in_step su' s' /\
    flat_map leaves (pending (stack s')) =
      flat_map leaves (pending (stack s)) ++ [leaf] /\
    rootnode s' = rootnode s /\
    stack s' <> [].
Proof.
  intros Hstep Hu. rewrite add_token_eq in Hu. rewrite add_token_eq.
  assert (length (stack su) = length (stack s)) as Hlen.
  { now rewrite <- (length_map dfa (stack su)), Hstep, length_map. }
  rewrite Hlen in Hu.
  destruct (find_plan_u _ _ _ _ _ _ _ su) as [[r0|e] su1] eqn:Hfu; [|discriminate].
  destruct (find_plan_in_step er _ (reentry er depth) _ _ _ _ _ _ _ _ _ _ Hstep Hfu)
    as (plan & s1 & -> & Hfp & Hstep1 & Hleaves & Hroot).
  rewrite Hfp.
  apply find_plan_some in Hfu as (tu & ru & Hsu1 & _).
  apply find_plan_some in Hfp as (tos & rest & Hs1 & _).
  destruct su1 as [stu rootu], s1 as [st1 root1]. cbn [stack rootnode] in *. subst stu st1.
  destruct (convert_leaf_returns ty v pf sp) as [leaf Hleaf].
  rewrite (shift_eq DFA unit grammar unit_leaf ty v sp pf _ _ _ _ tt eq_refl) in Hu.
  rewrite (shift_eq DFA Node grammar convert_leaf ty v sp pf _ _ _ _ leaf Hleaf).
  injection Hu as _ <-. injection Hstep1 as Hd Hr.
  exists leaf. eexists. split; [exact Hleaf|]. split; [reflexivity|].
  cbn [stack rootnode]. rewrite <- Hleaves.
  destruct (rev (dfa_pushes plan)) as [|last_push earlier].
  - repeat split; [cbn; congruence | | assumption | discriminate].
    rewrite !pending_cons. cbn [nodes]. rewrite !flat_map_app. cbn [flat_map].
    now rewrite (leaves_leaf _ _ _ _ _ Hleaf), app_assoc.
  - repeat split; [| | assumption | discriminate].
    + cbn [map dfa]. rewrite !map_app, !dfa_new. cbn. congruence.
    + rewrite pending_cons, pending_app, pending_new, app_nil_r. cbn [nodes].
      rewrite !pending_cons. cbn [nodes]. rewrite !flat_map_app. cbn [flat_map].
      now rewrite (leaves_leaf _ _ _ _ _ Hleaf).
Qed.

#[local] Abbreviation leaf_of t l :=
  (convert_leaf grammar (tk_type t) (tk_value t) (tk_prefix t) (tk_start_pos t) = Ret l).

Lemma feed_in_step er depth du tokens last lastu (su su' : UState) (s : State) :
  in_step su s ->
  stack s <> [] ->
  feed_u du tokens last su = (Ret lastu, su') ->
  exists ls s',
    Forall2 (fun t l => leaf_of t l) tokens ls /\
    feed er depth tokens last s = (Ret lastu, s') /\
    in_step su' s' /\
    flat_map leaves (pending (stack s')) =
      flat_map leaves (pending (stack s)) ++ ls /\
    rootnode s' = rootnode s /\
    stack s' <> [].
Proof.
  revert last su s. induction tokens as [|t ts IH]; intros last su s Hstep Hne Hu.
  - injection Hu as <- <-. exists [], s.
    repeat split; try assumption; [constructor | now rewrite app_nil_r].
  - rewrite feed_cons in Hu. rewrite feed_cons.
    destruct (add_token_u du _ _ _ _ su) as [[r|e] su1] eqn:Hau; [|discriminate].
    destruct (add_token_in_step er depth _ _ _ _ _ _ _ _ _ Hstep Hau)
      as (leaf & s1 & Hleaf & -> & Hstep1 & Hleaves1 & Hroot1 & Hne1).
    destruct (IH _ _ _ Hstep1 Hne1 Hu)
      as (ls & s' & Hls & -> & Hstep' & Hleaves' & Hroot' & Hne').
    exists (leaf :: ls), s'. repeat split; try assumption; try congruence.
    + now constructor.
    + now rewrite Hleaves', Hleaves1, <- app_assoc.
Qed.

Lemma drain_in_step n (su su' : UState) (s : State) :
  in_step su s ->
  stack s <> [] ->
  drain_u n su = (Ret tt, su') ->
  stack su' = [] ->
  exists root,
    drain n s = (Ret tt, mkPState [] (Some root)) /\
    leaves root = flat_map leaves (pending (stack s)).
Proof.
  revert su s. induction n as [|n IH];
    intros [[|tu ru] rootu] [[|tos rest] root] Hstep Hne Hu Hempty;
    cbn [stack map] in Hstep, Hne; try congruence;
    rewrite drain_eq in Hu; rewrite drain_eq; cbn [stack] in *;
    injection Hstep as Hd Hr; rewrite Hd in Hu;
    (destruct (is_final (dfa tos));
     [| injection Hu as <-; cbn [stack] in Hempty; discriminate]);
    try discriminate.
  destruct (pop_u_returns tu ru rootu) as (su1 & Hpu & Hdu). rewrite Hpu in Hu.
  destruct (pop_leaves tos rest root) as (nd & Hl & Hpop). rewrite Hpop.
  destruct rest as [|parent rest].
  - exists nd. split.
    + now rewrite drain_eq.
    + rewrite pending_cons. cbn. now rewrite Hl.
  - destruct (IH su1 (mkPState (mkStackNode (dfa parent) (nodes parent ++ [nd]) :: rest) root))
      as (rt & Hdr & Hrt); try assumption; try discriminate.
    + cbn [stack map dfa]. now rewrite Hdu, Hr.
    + exists rt. split; [exact Hdr|].
      cbn [stack] in Hrt. rewrite Hrt. now apply pop_keeps_leaves.
Qed.


End TokenPreservation.

(** ** Parsing decisions do not depend on the trees *)

Section Independence.

Variable DFA : Type.
Variable from_rule : DFA -> string.
Variable is_final : DFA -> bool.
Variable ilabel_to_plan : DFA -> dict Z (Plan DFA).
Variable NAME : Z.
Variable tok_name : dict Z string.
Variable grammar : Grammar DFA.

(** Two parsers over the same tables: the converters of the first are
    arbitrary, those of the second return. *)
Variables N1 N2 : Type.
Variable node1 : Grammar DFA -> string -> list N1 -> outcome N1.
Variable leaf1 : Grammar DFA -> Z -> string -> string -> pos -> outcome N1.
Variable node2 : Grammar DFA -> string -> list N2 -> outcome N2.
Variable leaf2 : Grammar DFA -> Z -> string -> string -> pos -> outcome N2.

Hypothesis node2_returns : forall rule cs, exists n, node2 grammar rule cs = Ret n.
Hypothesis leaf2_returns : forall ty v pf sp, exists n, leaf2 grammar ty v pf sp = Ret n.

#[local] Abbreviation pop1 := (_pop DFA from_rule N1 grammar node1).
#[local] Abbreviation pop2 := (_pop DFA from_rule N2 grammar node2).
#[local] Abbreviation find_plan1 :=
  (find_plan DFA from_rule is_final ilabel_to_plan tok_name N1 grammar node1 (strict_recovery DFA N1)).
#[local] Abbreviation find_plan2 :=
  (find_plan DFA from_rule is_final ilabel_to_plan tok_name N2 grammar node2).
#[local] Abbreviation add_token1 :=
  (add_token DFA from_rule is_final ilabel_to_plan NAME tok_name N1 grammar node1 leaf1
     (strict_recovery DFA N1)).
#[local] Abbreviation add_token2 :=
  (add_token DFA from_rule is_final ilabel_to_plan NAME tok_name N2 grammar node2 leaf2).
#[local] Abbreviation reentry2 :=
  (reentry DFA from_rule is_final ilabel_to_plan NAME tok_name N2 grammar node2 leaf2).
#[local] Abbreviation feed1 :=
  (feed DFA from_rule is_final ilabel_to_plan NAME tok_name N1 grammar node1 leaf1
     (strict_recovery DFA N1)).
#[local] Abbreviation feed2 :=
  (feed DFA from_rule is_final ilabel_to_plan NAME tok_name N2 grammar node2 leaf2).
#[local] Abbreviation drain1 := (drain DFA from_rule is_final N1 grammar node1).
#[local] Abbreviation drain2 := (drain DFA from_rule is_final N2 grammar node2).
#[local] Abbreviation parse1 :=
  (parse DFA from_rule is_final ilabel_to_plan NAME tok_name N1 grammar node1 leaf1
     (strict_recovery DFA N1)).
#[local] Abbreviation parse2 :=
  (parse DFA from_rule is_final ilabel_to_plan NAME tok_name N2 grammar node2 leaf2).

(** The raise on an empty stack is no return, whichever exception it is. *)
Ltac no_frame'' :=
  try discriminate;
  try (destruct (Dict.get _ tok_name); discriminate).

#[local] Abbreviation same_dfas s1 s2 :=
  (map dfa (stack (s1 : PState DFA N1)) = map dfa (stack (s2 : PState DFA N2))).

Lemma pop_same_dfas (s1 s1' : PState DFA N1) (s2 : PState DFA N2) :
  same_dfas s1 s2 ->
  pop1 s1 = (Ret tt, s1') ->
  exists s2', pop2 s2 = (Ret tt, s2') /\ same_dfas s1' s2'.
Proof.
  intros Hsame Hpop. apply pop_inv in Hpop as (tos1 & rest1 & n1 & Hs1 & ->).
  destruct s2 as [[|tos2 rest2] root2]; rewrite Hs1 in Hsame;
    cbn [stack map] in Hsame; [discriminate|].
  injection Hsame as _ Hrest.
  destruct (pop_returns DFA from_rule N2 grammar node2 node2_returns tos2 rest2 root2)
    as (s2' & Hpop2 & Hd2).
  exists s2'. split; [exact Hpop2|]. rewrite Hd2, <- Hrest.
  now destruct rest1.
Qed.

Lemma find_plan_same_dfas er n re1 re2 il ty v sp pf
    (s1 s1' : PState DFA N1) (s2 : PState DFA N2) r :
  same_dfas s1 s2 ->
  find_plan1 n re1 il ty v sp pf s1 = (Ret r, s1') ->
  exists s2', find_plan2 er n re2 il ty v sp pf s2 = (Ret r, s2') /\ same_dfas s1' s2'.
Proof.
  revert s1 s2. induction n as [|n IH]; intros s1 s2 Hsame;
    rewrite !find_plan_eq;
    destruct (stack s1) as [|tos1 rest1] eqn:Hs1; no_frame'';
    destruct (stack s2) as [|tos2 rest2] eqn:Hs2; try discriminate;
    injection Hsame as Hd Hrest; rewrite <- Hd;
    (destruct (lookup_plan DFA ilabel_to_plan (dfa tos1) il);
     [intros [= <- <-]; exists s2; split; [reflexivity | rewrite Hs1, Hs2; cbn [map]; congruence]|]);
    destruct (is_final (dfa tos1)); try discriminate.
  destruct (pop1 s1) as [[[]|e] s1a] eqn:Hpop1; [|discriminate].
  intros Hfp.
  destruct (pop_same_dfas s1 s1a s2) as (s2a & -> & Hsame');
    [rewrite Hs1, Hs2; cbn [map]; congruence | exact Hpop1 |].
  now apply (IH s1a s2a).
Qed.

Lemma add_token_same_dfas er d1 d2 ty v sp pf
    (s1 s1' : PState DFA N1) (s2 : PState DFA N2) r :
  same_dfas s1 s2 ->
  add_token1 d1 ty v sp pf s1 = (Ret r, s1') ->
  exists s2', add_token2 er d2 ty v sp pf s2 = (Ret (VNone DFA N2), s2') /\
              same_dfas s1' s2'.
Proof.
  intros Hsame. rewrite !add_token_eq.
  assert (length (stack s1) = length (stack s2)) as ->.
  { now rewrite <- (length_map dfa (stack s1)), Hsame, length_map. }
  destruct (find_plan1 _ _ _ _ _ _ _ s1) as [[found|e] s1a] eqn:Hfp1; [|discriminate].
  destruct (find_plan_same_dfas er _ _ (reentry2 er d2) _ _ _ _ _ _ _ _ _ Hsame Hfp1)
    as (s2a & -> & Hsame').
  destruct found as [plan|]; [|exfalso].
  - apply find_plan_some in Hfp1 as (tos1 & rest1 & Hs1 & _).
    destruct s1a as [st1 root1], s2a as [st2 root2]. cbn [stack] in *. subst st1.
    destruct st2 as [|tos2 rest2]; [discriminate|]. injection Hsame' as Hd Hrest.
    destruct (leaf2_returns ty v pf sp) as [l2 Hl2].
    rewrite (shift_eq DFA N2 grammar leaf2 ty v sp pf _ _ _ _ l2 Hl2).
    destruct (leaf1 grammar ty v pf sp) as [l1|e] eqn:Hl1.
    + intros Hat. rewrite <- Hl1 in Hat.
      rewrite (shift_eq DFA N1 grammar leaf1 ty v sp pf _ _ _ _ l1 Hl1) in Hat.
      injection Hat as _ <-. eexists. split; [reflexivity|]. cbn [stack].
      destruct (rev (dfa_pushes plan)) as [|last_push earlier]; cbn [map dfa];
        [congruence|].
      rewrite !map_app. cbn [map dfa].
      assert (forall N (ds : list DFA), map dfa (map (@StackNode_new DFA N) ds) = ds)
        as Hnew by (intros N ds; induction ds as [|x xs IHxs]; cbn; congruence).
      rewrite !Hnew. congruence.
    + unfold append_tos, set_tos_dfa, push, mbind, mret, M_bind, M_ret, raise,
        lift, get_stack, set_stack. cbn [stack rootnode].
      rewrite push_all_spec. discriminate.
  - apply find_plan_hook in Hfp1 as (k & s0 & _ & _ & _ & Hhook). discriminate.
Qed.

Lemma feed_same_dfas er d1 d2 tokens last l
    (s1 s1' : PState DFA N1) (s2 : PState DFA N2) :
  same_dfas s1 s2 ->
  feed1 d1 tokens last s1 = (Ret l, s1') ->
  exists s2', feed2 er d2 tokens last s2 = (Ret l, s2') /\ same_dfas s1' s2'.
Proof.
  revert last s1 s2. induction tokens as [|t ts IH]; intros last s1 s2 Hsame.
  - intros [= <- <-]. now exists s2.
  - rewrite !feed_cons.
    destruct (add_token1 d1 _ _ _ _ s1) as [[r|e] s1a] eqn:Hat; [|discriminate].
    destruct (add_token_same_dfas er d1 d2 _ _ _ _ _ _ _ _ Hsame Hat)
      as (s2a & -> & Hsame').
    now apply IH.
Qed.

Lemma drain_same_dfas n (s1 s1' : PState DFA N1) (s2 : PState DFA N2) :
  same_dfas s1 s2 ->
  drain1 n s1 = (Ret tt, s1') ->
  exists s2', drain2 n s2 = (Ret tt, s2') /\ same_dfas s1' s2'.
Proof.
  revert s1 s2. induction n as [|n IH]; intros s1 s2 Hsame;
    rewrite !drain_eq;
    destruct (stack s1) as [|tos1 rest1] eqn:Hs1;
    destruct (stack s2) as [|tos2 rest2] eqn:Hs2; no_frame'';
    try (intros [= <-]; exists s2; split; [reflexivity | now rewrite Hs1, Hs2]);
    injection Hsame as Hd Hrest; rewrite <- Hd;
    (destruct (is_final (dfa tos1));
     [| intros [= <-]; exists s2; split;
        [reflexivity | rewrite Hs1, Hs2; cbn [map]; congruence]]);
    try discriminate.
  destruct (pop1 s1) as [[[]|e] s1a] eqn:Hpop1; [|discriminate].
  intros Hdr.
  destruct (pop_same_dfas s1 s1a s2) as (s2a & -> & Hsame');
    [rewrite Hs1, Hs2; cbn [map]; congruence | exact Hpop1 |].
  now apply (IH s1a s2a).
Qed.

(** When [parse] returns with a hook that recovers nothing, it returns as
    well from any state with the same DFA states on the stack, with any
    other node type, any converters that return and any hook. *)
Lemma parse_in_step er d1 d2 tokens
    (s1 s1' : PState DFA N1) (s2 : PState DFA N2) r1 :
  same_dfas s1 s2 ->
  parse1 d1 tokens s1 = (Ret r1, s1') ->
  exists r2 s2', parse2 er d2 tokens s2 = (Ret r2, s2') /\ stack s2' = [].
Proof.
  intros Hsame. rewrite !parse_eq.
  destruct (feed1 d1 tokens None s1) as [[last|e] s1a] eqn:Hf1; [|discriminate].
  destruct (feed_same_dfas er d1 d2 _ _ _ _ _ _ Hsame Hf1) as (s2a & -> & Hsame1).
  assert (length (stack s1a) = length (stack s2a)) as ->.
  { now rewrite <- (length_map dfa (stack s1a)), Hsame1, length_map. }
  destruct (drain1 _ s1a) as [[[]|e] s1b] eqn:Hd1; [|discriminate].
  destruct (drain_same_dfas _ _ _ _ Hsame1 Hd1) as (s2b & -> & Hsame2).
  destruct (stack s1b) as [|x xs]; [|destruct last; no_frame''].
  intros _. destruct (stack s2b) as [|y ys] eqn:Hs2b; [|discriminate].
  exists (rootnode s2b), s2b. now rewrite Hs2b.
Qed.

End Independence.

(** Whether a stream parses is decided by the grammar tables and the tokens
    alone: with converters that return, [parse] with a hook that recovers
    nothing returns from the start state exactly for the streams the
    recognizer accepts, whatever the node type and the bound on re-entry. *)
Theorem accepts_iff_strict_parse
    (DFA : Type) (from_rule : DFA -> string) (is_final : DFA -> bool)
    (ilabel_to_plan : DFA -> dict Z (Plan DFA)) (NAME : Z)
    (tok_name : dict Z string) (grammar : Grammar DFA)
    (Node : Type)
    (convert_node : Grammar DFA -> string -> list Node -> outcome Node)
    (convert_leaf : Grammar DFA -> Z -> string -> string -> pos -> outcome Node)
    (start_dfa : DFA) (tokens : list Token) (depth : nat) :
  (forall rule cs, exists n, convert_node grammar rule cs = Ret n) ->
  (forall ty v pf sp, exists n, convert_leaf grammar ty v pf sp = Ret n) ->
  accepts DFA from_rule is_final ilabel_to_plan NAME tok_name grammar start_dfa tokens = true
  <->
  exists root st',
    parse DFA from_rule is_final ilabel_to_plan NAME tok_name Node grammar
      convert_node convert_leaf (strict_recovery DFA Node) depth tokens
      (mkPState [StackNode_new start_dfa] None) = (Ret root, st').
Proof.
  intros Hnode Hleaf. unfold accepts, recognize. split.
  - destruct (parse DFA from_rule is_final ilabel_to_plan NAME tok_name unit grammar _ _ _ _ _ _)
      as [[r|e] su] eqn:Hu; [|discriminate]. intros _.
    destruct (parse_in_step DFA from_rule is_final ilabel_to_plan NAME tok_name grammar
                unit Node _ _ convert_node convert_leaf Hnode Hleaf
                (strict_recovery DFA Node) 0%nat depth tokens
                (mkPState [StackNode_new start_dfa] None) _
                (mkPState [StackNode_new start_dfa] None) _ eq_refl Hu)
      as (r2 & s2 & Hp & _).
    eauto.
  - intros (root & st' & Hp).
    destruct (parse_in_step DFA from_rule is_final ilabel_to_plan NAME tok_name grammar
                Node unit convert_node convert_leaf
                (fun _ _ _ => Ret tt) (fun _ _ _ _ _ => Ret tt)
                ltac:(intros; eexists; reflexivity)
                ltac:(intros; eexists; reflexivity)
                (strict_recovery DFA unit) depth 0%nat tokens
                (mkPState [StackNode_new start_dfa] None) _
                (mkPState [StackNode_new start_dfa] None) _ eq_refl Hp)
      as (r2 & s2 & -> & _).
    reflexivity.
Qed.

(** ** Inverting a dict *)

Lemma get_set {A B : Type} `{EqDecision A} (k k' : A) (v : B) (d : dict A B) :
  Dict.get k' (Dict.set k v d) = if decide (k' = k) then Some v else Dict.get k' d.
Proof.
  induction d as [|[k0 v0] d IH]; cbn.
  - destruct (decide (k' = k)); reflexivity.
  - destruct (decide (k = k0)) as [->|Hne]; cbn.
    + destruct (decide (k' = k0)); reflexivity.
    + destruct (decide (k' = k0)) as [->|Hne'].
      * destruct (decide (k0 = k)); congruence.
      * exact IH.
Qed.

Section Invert.

Context {K V : Type} `{EqDecision K} `{EqDecision V}.

Lemma invert_snoc (d : dict K V) (k : K) (v : V) :
  Dict.invert (d ++ [(k, v)]) = Dict.set v k (Dict.invert d).
Proof. unfold Dict.invert, Dict.items. now rewrite fold_left_app. Qed.

(** [dict((v, k) for k, v in d.items())] maps a value to a key that holds
    it, and, when no two keys hold the same value, to the key that holds
    it: looking up through the inverse undoes looking up. *)
Theorem invert_get (d : dict K V) (k : K) (v : V) :
  (Dict.get v (Dict.invert d) = Some k -> In (k, v) d) /\
  (NoDup (map snd d) -> In (k, v) d -> Dict.get v (Dict.invert d) = Some k).
Proof.
  induction d as [|[k0 v0] d [IH1 IH2]] using rev_ind; [split; [discriminate | intros _ []]|].
  rewrite invert_snoc, get_set. split.
  - destruct (decide (v = v0)) as [->|Hne].
    + intros [= <-]. apply in_or_app. right. now left.
    + intros Hg. apply in_or_app. left. now apply IH1.
  - rewrite map_app. intros Hnd Hin.
    apply NoDup_app in Hnd as (Hnd & Hdisj & _).
    apply in_app_or in Hin as [Hin|[[= <- <-]|[]]].
    + destruct (decide (v = v0)) as [->|Hne]; [|now apply IH2].
      exfalso. apply (Hdisj v0).
      * apply list_elem_of_In. apply (in_map snd _ _ Hin).
      * cbn. left.
    + destruct (decide (v0 = v0)); congruence.
Qed.

End Invert.

(** * The concrete parser *)

Module Run.
Import Example.

#[local] Abbreviation add_token :=
  (add_token nat from_rule is_final ilabel_to_plan NAME tok_name tree grammar
     convert_node convert_leaf).
#[local] Abbreviation parse :=
  (parse nat from_rule is_final ilabel_to_plan NAME tok_name tree grammar
     convert_node convert_leaf).

(** C2, at [a b] of the concrete grammar: after [b] every frame left is in
    a final state, the parse is complete and [parse] returns its root there,
    yet [add_token] returned None, which is not true. *)
Theorem add_token_returns_None_at_end :
  exists st1 st2,
    add_token (strict_recovery nat tree) 0 NAME "a" (1, 0) "" st0 = (Ret (VNone nat tree), st1) /\
    add_token (strict_recovery nat tree) 0 NAME "b" (1, 1) "" st1 = (Ret (VNone nat tree), st2) /\
    truthy nat tree (VNone nat tree) = false /\
    forallb (fun sn => is_final (dfa sn)) (stack st2) = true /\
    fst (parse (strict_recovery nat tree) 0 [tok "a" 0; tok "b" 1] st0) =
      Ret (Some (Nd "S" [Leaf 1 "a" "" (1, 0); Leaf 1 "b" "" (1, 1)])).
Proof.
  do 2 eexists. repeat split; vm_compute; reflexivity.
Qed.

(** C3, at the empty stream of the concrete grammar: the start state is not
    final, so the stack is not empty after the stream, and what [parse]
    raises is UnboundLocalError for the loop variable [type_], not
    "incomplete input". *)
Theorem parse_empty_stream_unbound :
  is_final 0%nat = false /\
  parse (strict_recovery nat tree) 0 [] st0 = (Raise (UnboundLocalError "type_"), st0).
Proof. split; reflexivity. Qed.

(** C4, at a token whose type has no name in [tok_name], after [a b] of
    the concrete grammar: both frames are final and without a plan, they are
    reduced and the lookup meets the empty stack, yet what comes out of
    [add_token] is the KeyError of the constructor of the exception, not
    "too much input". *)
Theorem too_much_input_unnamed_type :
  Dict.get 999 tok_name = None /\
  Forall (fun sn =>
            lookup_plan nat ilabel_to_plan (dfa sn)
              (token_to_ilabel nat NAME grammar 999 "?") = None /\
            is_final (dfa sn) = true)
    [mkStackNode 4%nat [Leaf 1 "b" "" (1, 1)];
     mkStackNode 2%nat [Leaf 1 "a" "" (1, 0)]] /\
  add_token (strict_recovery nat tree) 0 999 "?" (1, 2) ""
    (mkPState [mkStackNode 4%nat [Leaf 1 "b" "" (1, 1)];
               mkStackNode 2%nat [Leaf 1 "a" "" (1, 0)]] None) =
  (Raise KeyError,
   mkPState [] (Some (Nd "S" [Leaf 1 "a" "" (1, 0); Leaf 1 "b" "" (1, 1)]))).
Proof.
  split; [reflexivity|]. split; [repeat constructor | reflexivity].
Qed.

End Run.

(** * Instances *)

Lemma token_to_ilabel_shadowing_witness :
  token_to_ilabel nat Example.NAME Example.grammar 1 "a" = Some 1 /\
  token_to_ilabel nat Example.NAME Example.grammar 1 "a" <> Some 3 /\
  token_to_ilabel nat Example.NAME Example.grammar 7 "a" = None.
Proof.
  destruct (token_to_ilabel_shadowing nat Example.NAME Example.grammar 1 "a")
    as [Hkw _].
  destruct (Hkw eq_refl 1 eq_refl) as [Hl Hne].
  destruct (token_to_ilabel_shadowing nat Example.NAME Example.grammar 7 "a")
    as [_ Hno].
  split; [exact Hl|]. split.
  - apply (Hne 3); [reflexivity | discriminate].
  - apply Hno; [intros [Heq _]; discriminate Heq | reflexivity].
Defined.

(** A frame with one child is reduced even by a converter that raises. *)
Lemma pop_reduction_witness :
  _pop nat Example.from_rule Example.tree Example.grammar Example.no_node
    (mkPState [mkStackNode 4%nat [Example.Leaf 1 "b" "" (1, 1)];
               mkStackNode 2%nat [Example.Leaf 1 "a" "" (1, 0)]] None) =
  (Ret tt,
   mkPState [mkStackNode 2%nat [Example.Leaf 1 "a" "" (1, 0);
                                Example.Leaf 1 "b" "" (1, 1)]] None).
Proof.
  exact (pop_reduction nat Example.from_rule Example.tree Example.grammar
           Example.no_node (mkStackNode 4%nat [Example.Leaf 1 "b" "" (1, 1)])
           [mkStackNode 2%nat [Example.Leaf 1 "a" "" (1, 0)]] None
           (Example.Leaf 1 "b" "" (1, 1)) (or_introl eq_refl)).
Defined.

Lemma add_token_shift_witness :
  add_token nat Example.from_rule Example.is_final Example.ilabel_to_plan
    Example.NAME Example.tok_name Example.tree Example.grammar Example.convert_node
    Example.convert_leaf (strict_recovery nat Example.tree) 0 1 "b" (1, 1) ""
    (mkPState [mkStackNode 1%nat [Example.Leaf 1 "a" "" (1, 0)]] None) =
  (Ret (VNone nat Example.tree),
   mkPState [mkStackNode 4%nat [Example.Leaf 1 "b" "" (1, 1)];
             mkStackNode 2%nat [Example.Leaf 1 "a" "" (1, 0)]] None).
Proof.
  exact (add_token_shift nat Example.from_rule Example.is_final
           Example.ilabel_to_plan Example.NAME Example.tok_name Example.tree Example.grammar
           Example.convert_node Example.convert_leaf (strict_recovery nat Example.tree) 0%nat
           1 "b" (1, 1) "" (mkStackNode 1%nat [Example.Leaf 1 "a" "" (1, 0)])
           [] None (mkPlan 2%nat [4%nat]) (Example.Leaf 1 "b" "" (1, 1))
           eq_refl eq_refl).
Defined.

(** [c] after [a b]: the final frame of [B], with its one child, is
    reduced first.  [c] at the start: the hook is run and its exception
    comes through. *)
Lemma add_token_no_transition_witness :
  add_token nat Example.from_rule Example.is_final Example.ilabel_to_plan
    Example.NAME Example.tok_name Example.tree Example.grammar
    Example.convert_node Example.convert_leaf (strict_recovery nat Example.tree) 0 1 "c" (1, 2) ""
    (mkPState [mkStackNode 4%nat [Example.Leaf 1 "b" "" (1, 1)];
               mkStackNode 2%nat [Example.Leaf 1 "a" "" (1, 0)]] None) =
  add_token nat Example.from_rule Example.is_final Example.ilabel_to_plan
    Example.NAME Example.tok_name Example.tree Example.grammar
    Example.convert_node Example.convert_leaf (strict_recovery nat Example.tree) 0 1 "c" (1, 2) ""
    (mkPState [mkStackNode 2%nat [Example.Leaf 1 "a" "" (1, 0);
                                  Example.Leaf 1 "b" "" (1, 1)]] None)
  /\
  fst (add_token nat Example.from_rule Example.is_final Example.ilabel_to_plan
    Example.NAME Example.tok_name Example.tree Example.grammar
    Example.convert_node Example.convert_leaf (strict_recovery nat Example.tree) 0 1 "c" (1, 0) "" Example.st0) =
  Raise (Raised "ParserSyntaxError").
Proof.
  split.
  - exact (proj1 (add_token_no_transition nat Example.from_rule Example.is_final
           Example.ilabel_to_plan Example.NAME Example.tok_name Example.tree
           Example.grammar Example.convert_node Example.convert_leaf
                    (strict_recovery nat Example.tree) 0%nat 1 "c" (1, 2) ""
                    (mkStackNode 4%nat [Example.Leaf 1 "b" "" (1, 1)])
                    [mkStackNode 2%nat [Example.Leaf 1 "a" "" (1, 0)]] None
                    eq_refl)
             eq_refl (Example.Leaf 1 "b" "" (1, 1)) (or_introl eq_refl)).
  - destruct (add_token_no_transition nat Example.from_rule Example.is_final
           Example.ilabel_to_plan Example.NAME Example.tok_name Example.tree
           Example.grammar Example.convert_node Example.convert_leaf
                (strict_recovery nat Example.tree) 0%nat
                1 "c" (1, 0) "" (mkStackNode 0%nat []) [] None eq_refl)
      as [_ Hdead].
    unfold Example.st0, StackNode_new. rewrite (Hdead eq_refl). reflexivity.
Defined.

(** The grammar [E:] of the empty stream only, with a leaf converter that
    raises. *)
Lemma parse_empty_stream_witness :
  parse nat (fun _ => "E") (fun _ => true) (fun _ => []) Example.NAME Example.tok_name
    Example.tree (mkGrammar [] [] [(256, "E")] [("E", [0%nat])])
    Example.convert_node Example.no_leaf (strict_recovery nat Example.tree) 0 []
    (mkPState [StackNode_new 0%nat] None) =
  (Ret (Some (Example.Nd "E" [])), mkPState [] (Some (Example.Nd "E" []))).
Proof.
  destruct (parse_empty_stream nat (fun _ => "E") (fun _ => true) (fun _ => [])
              Example.NAME Example.tok_name Example.tree
              (mkGrammar [] [] [(256, "E")] [("E", [0%nat])])
              Example.convert_node Example.no_leaf 256 "E" 0%nat []
              (Example.Nd "E" []) eq_refl eq_refl eq_refl eq_refl eq_refl)
    as [_ Hp].
  apply Hp.
Defined.

Lemma stack_introspection_fails_witness :
  get_tos_nodes nat Example.tree
    (map (VStackNode nat Example.tree) (stack Example.st0)) = Raise TypeError /\
  get_tos_first_tokens nat [(1, "NAME")] Example.tree
    (map (VStackNode nat Example.tree) (stack Example.st0)) Example.grammar =
    Raise TypeError.
Proof.
  apply (stack_introspection_fails nat [(1, "NAME")] Example.tree
           (stack Example.st0) Example.grammar).
  discriminate.
Defined.


(** ** Instances of the further properties *)

Lemma pop_raises_witness :
  _pop nat Example.from_rule Example.tree Example.grammar Example.no_node
    (mkPState [mkStackNode 2%nat [Example.Leaf 1 "a" "" (1, 0);
                                  Example.Leaf 1 "b" "" (1, 1)]] None) =
  (Raise (Raised "convert_node"), mkPState [] None).
Proof.
  exact (proj2 (pop_raises nat Example.from_rule Example.tree Example.grammar
                  Example.no_node [] None)
           (mkStackNode 2%nat [Example.Leaf 1 "a" "" (1, 0);
                               Example.Leaf 1 "b" "" (1, 1)])
           (Raised "convert_node") ltac:(discriminate) eq_refl).
Defined.

Lemma pop_keeps_frames_witness :
  S (length (stack (mkPState [mkStackNode 2%nat [Example.Leaf 1 "a" "" (1, 0);
                                           Example.Leaf 1 "b" "" (1, 1)]] (@None Example.tree)))) =
    length (stack (mkPState [mkStackNode 4%nat [Example.Leaf 1 "b" "" (1, 1)];
                       mkStackNode 2%nat [Example.Leaf 1 "a" "" (1, 0)]] (@None Example.tree))) /\
  map dfa (stack (mkPState [mkStackNode 2%nat [Example.Leaf 1 "a" "" (1, 0);
                                           Example.Leaf 1 "b" "" (1, 1)]] (@None Example.tree))) =
    tail (map dfa (stack (mkPState [mkStackNode 4%nat [Example.Leaf 1 "b" "" (1, 1)];
                       mkStackNode 2%nat [Example.Leaf 1 "a" "" (1, 0)]] (@None Example.tree)))) /\
  tail (stack (mkPState [mkStackNode 2%nat [Example.Leaf 1 "a" "" (1, 0);
                                           Example.Leaf 1 "b" "" (1, 1)]] (@None Example.tree))) =
    tail (tail (stack (mkPState [mkStackNode 4%nat [Example.Leaf 1 "b" "" (1, 1)];
                       mkStackNode 2%nat [Example.Leaf 1 "a" "" (1, 0)]] (@None Example.tree)))) /\
  rootnode (mkPState [mkStackNode 2%nat [Example.Leaf 1 "a" "" (1, 0);
                                           Example.Leaf 1 "b" "" (1, 1)]] (@None Example.tree)) =
    rootnode (mkPState [mkStackNode 4%nat [Example.Leaf 1 "b" "" (1, 1)];
                       mkStackNode 2%nat [Example.Leaf 1 "a" "" (1, 0)]] (@None Example.tree)).
Proof.
  exact (pop_keeps_frames nat Example.from_rule Example.tree Example.grammar
           Example.convert_node
           (mkPState [mkStackNode 4%nat [Example.Leaf 1 "b" "" (1, 1)];
                      mkStackNode 2%nat [Example.Leaf 1 "a" "" (1, 0)]] None)
           (mkPState [mkStackNode 2%nat [Example.Leaf 1 "a" "" (1, 0);
                                         Example.Leaf 1 "b" "" (1, 1)]] None)
           eq_refl).
Defined.

Lemma strict_parse_any_hook_witness :
  parse nat Example.from_rule Example.is_final Example.ilabel_to_plan
    Example.NAME Example.tok_name Example.tree Example.grammar Example.convert_node
    Example.convert_leaf Example.skip_recovery 3
    [Example.tok "a" 0; Example.tok "b" 1] Example.st0 =
  (Ret (Some (Example.Nd "S" [Example.Leaf 1 "a" "" (1, 0);
                              Example.Leaf 1 "b" "" (1, 1)])),
   mkPState [] (Some (Example.Nd "S" [Example.Leaf 1 "a" "" (1, 0);
                                      Example.Leaf 1 "b" "" (1, 1)]))).
Proof.
  exact (strict_parse_any_hook nat Example.from_rule Example.is_final
           Example.ilabel_to_plan Example.NAME Example.tok_name Example.tree Example.grammar
           Example.convert_node Example.convert_leaf Example.skip_recovery
           0%nat 3%nat [Example.tok "a" 0; Example.tok "b" 1] Example.st0 _ _
           eq_refl).
Defined.

Lemma drain_stops_witness :
  drain nat Example.from_rule Example.is_final Example.tree Example.grammar
    Example.convert_node 1
    (mkPState [mkStackNode 1%nat [Example.Leaf 1 "a" "" (1, 0)]] None) =
  (Ret tt, mkPState [mkStackNode 1%nat [Example.Leaf 1 "a" "" (1, 0)]] None).
Proof.
  exact (proj2 (drain_stops nat Example.from_rule Example.is_final Example.tree
                  Example.grammar Example.convert_node
                  (mkPState [mkStackNode 1%nat [Example.Leaf 1 "a" "" (1, 0)]] None))
           eq_refl).
Defined.

Lemma drain_promotes_chain_witness :
  drain nat Example.from_rule Example.is_final Example.tree Example.grammar
    Example.no_node 2
    (mkPState [mkStackNode 4%nat [Example.Leaf 1 "b" "" (1, 1)];
               mkStackNode 2%nat []] None) =
  (Ret tt, mkPState [] (Some (Example.Leaf 1 "b" "" (1, 1)))).
Proof.
  apply (drain_promotes_chain nat Example.from_rule Example.is_final Example.tree
           Example.grammar Example.no_node
           (mkStackNode 4%nat [Example.Leaf 1 "b" "" (1, 1)])
           [mkStackNode 2%nat []] None (Example.Leaf 1 "b" "" (1, 1)));
    [reflexivity | repeat constructor | repeat constructor].
Defined.

Lemma add_token_returns_cases_witness :
  exists leaf top rest,
    Example.convert_leaf Example.grammar 1 "a" "" (1, 0) = Ret leaf /\
    [mkStackNode 1%nat [Example.Leaf 1 "a" "" (1, 0)]] = top :: rest /\
    last (nodes top) = Some leaf /\
    (None : option Example.tree) = None.
Proof.
  destruct (add_token_returns_cases nat Example.from_rule Example.is_final
           Example.ilabel_to_plan Example.NAME Example.tok_name Example.tree
           Example.grammar Example.convert_node Example.convert_leaf
              (strict_recovery nat Example.tree) 0%nat 1 "a" (1, 0) ""
              Example.st0
              (mkPState [mkStackNode 1%nat [Example.Leaf 1 "a" "" (1, 0)]] None)
              (VNone nat Example.tree) eq_refl)
    as [Hshift | (k & st1 & _ & _ & _ & Hhook)].
  - exact Hshift.
  - discriminate Hhook.
Defined.

Lemma add_token_returns_None_witness :
  VNone nat Example.tree = VNone nat Example.tree.
Proof.
  exact (add_token_returns_None nat Example.from_rule Example.is_final
           Example.ilabel_to_plan Example.NAME Example.tok_name Example.tree Example.grammar
           Example.convert_node Example.convert_leaf
           (strict_recovery nat Example.tree) 0%nat 1 "a" (1, 0) ""
           Example.st0
           (mkPState [mkStackNode 1%nat [Example.Leaf 1 "a" "" (1, 0)]] None)
           (VNone nat Example.tree) eq_refl).
Defined.

Lemma parse_after_drain_witness :
  parse nat Example.from_rule Example.is_final Example.ilabel_to_plan
    Example.NAME Example.tok_name Example.tree Example.grammar Example.convert_node
    Example.convert_leaf (strict_recovery nat Example.tree) 0
    [Example.tok "a" 0] Example.st0 =
  (Raise (InternalParseError "incomplete input" 1 "a" (1, 0)),
   mkPState [mkStackNode 1%nat [Example.Leaf 1 "a" "" (1, 0)]] None).
Proof.
  exact (parse_after_drain nat Example.from_rule Example.is_final
           Example.ilabel_to_plan Example.NAME Example.tok_name Example.tree Example.grammar
           Example.convert_node Example.convert_leaf
           (strict_recovery nat Example.tree) 0%nat [Example.tok "a" 0]
           (Some (Example.tok "a" 0)) Example.st0
           (mkPState [mkStackNode 1%nat [Example.Leaf 1 "a" "" (1, 0)]] None)
           (mkPState [mkStackNode 1%nat [Example.Leaf 1 "a" "" (1, 0)]] None)
           eq_refl eq_refl).
Defined.

Lemma too_much_input_state_witness :
  exists new_root,
    add_token nat Example.from_rule Example.is_final Example.ilabel_to_plan
    Example.NAME Example.tok_name Example.tree Example.grammar
    Example.convert_node Example.convert_leaf (strict_recovery nat Example.tree) 0 1 "c" (1, 2) ""
      (mkPState [mkStackNode 4%nat [Example.Leaf 1 "b" "" (1, 1)];
               mkStackNode 2%nat [Example.Leaf 1 "a" "" (1, 0)]] None) =
    (Raise (InternalParseError "too much input" 1 "c" (1, 2)),
     mkPState [] (Some new_root)).
Proof.
  exact (too_much_input_state nat Example.from_rule Example.is_final
           Example.ilabel_to_plan Example.NAME Example.tok_name Example.tree
           Example.grammar Example.convert_node Example.convert_leaf
           (fun rule cs => ex_intro _ (Example.Nd rule cs) eq_refl)
           (strict_recovery nat Example.tree) 0%nat 1 "c" (1, 2) ""
           (mkStackNode 4%nat [Example.Leaf 1 "b" "" (1, 1)])
           [mkStackNode 2%nat [Example.Leaf 1 "a" "" (1, 0)]] None
           ltac:(repeat constructor)).
Defined.

(** [c] after [a b] with a hook that drops the token: both frames are
    final and without a plan, so what is raised is the engine's "too much
    input". *)
Lemma add_token_raises_cases_witness :
  exists st',
    add_token nat Example.from_rule Example.is_final Example.ilabel_to_plan
      Example.NAME Example.tok_name Example.tree Example.grammar
      Example.convert_node Example.convert_leaf Example.skip_recovery
      0 1 "c" (1, 2) ""
      (mkPState [mkStackNode 4%nat [Example.Leaf 1 "b" "" (1, 1)];
               mkStackNode 2%nat [Example.Leaf 1 "a" "" (1, 0)]] None) =
    (Raise (InternalParseError "too much input" 1 "c" (1, 2)), st') /\
    stack st' = [].
Proof.
  exact (proj1 (add_token_raises_cases nat Example.from_rule Example.is_final
           Example.ilabel_to_plan Example.NAME Example.tok_name Example.tree
           Example.grammar Example.convert_node Example.convert_leaf
                  (fun rule cs => ex_intro _ (Example.Nd rule cs) eq_refl)
                  (fun ty v pf sp => ex_intro _ (Example.Leaf ty v pf sp) eq_refl)
                  Example.skip_recovery 0%nat 1 "c" (1, 2) ""
                  (mkPState [mkStackNode 4%nat [Example.Leaf 1 "b" "" (1, 1)];
               mkStackNode 2%nat [Example.Leaf 1 "a" "" (1, 0)]] None))
           ltac:(repeat constructor)).
Defined.

Lemma accepts_iff_strict_parse_witness :
  exists root st',
    parse nat Example.from_rule Example.is_final Example.ilabel_to_plan
      Example.NAME Example.tok_name Example.tree Example.grammar Example.convert_node
      Example.convert_leaf (strict_recovery nat Example.tree) 0
      [Example.tok "a" 0; Example.tok "b" 1] Example.st0 = (Ret root, st').
Proof.
  apply (accepts_iff_strict_parse nat Example.from_rule Example.is_final
           Example.ilabel_to_plan Example.NAME Example.tok_name Example.grammar Example.tree
           Example.convert_node Example.convert_leaf 0%nat
           [Example.tok "a" 0; Example.tok "b" 1] 0%nat).
  - intros rule cs. eexists. reflexivity.
  - intros ty v pf sp. eexists. reflexivity.
  - vm_compute. reflexivity.
Defined.

Lemma get_tos_first_tokens_sorted_witness :
  [Example.tuple_frame] <> [] /\ Sorted str_le ["NAME"; "a"].
Proof.
  apply (get_tos_first_tokens_sorted nat [(1, "NAME")] Example.tree
           [Example.tuple_frame] Example.grammar).
  vm_compute. reflexivity.
Defined.

Lemma invert_get_witness :
  Dict.get 2 (Dict.invert (keywords Example.grammar)) = Some "b".
Proof.
  apply (proj2 (invert_get (keywords Example.grammar) "b" 2)).
  - repeat constructor; cbn; intros H; inversion H; subst;
      try discriminate; match goal with H' : _ ∈ [] |- _ => inversion H' end.
  - cbn. right. left. reflexivity.
Defined.
